(** * npmws / wurk: process spawn coordinator, range sync, bump, pnpm adapter
      and command-plugin loader, embedded from the TypeScript sources.

    Conventions of the embedding.
    - A JS string is a [string]; its characters are code units below 256.
    - A value that may be [undefined] or [null] is an [option].
    - A JS object used as a dictionary is a [gmap string _]; a [Set] is a
      [gset].
    - Functions of packages outside the repository ([semver], [npm-run-path],
      [node:path], [@wurk/import], ...) are Section variables: every theorem
      holds for all of them.

    Part I holds the definitions, Part II the theorems. *)

From Stdlib Require Import ZArith Ascii String.
From stdpp Require Import gmap strings list fin_maps sorting pretty.

Open Scope string_scope.
Open Scope list_scope.
Open Scope nat_scope.

(** * Part I: definitions *)

(** ** JavaScript helpers shared by the modules *)

(** [Boolean(value)] for a [string | undefined]: the empty string and
    [undefined] are falsy. *)
Definition truthy (value : option string) : bool :=
  match value with
  | Some s => negb (String.eqb s "")
  | None => false
  end.

(** [Array.prototype.join] on an array of strings. *)
Fixpoint join (sep : string) (l : list string) : string :=
  match l with
  | [] => ""
  | [s] => s
  | s :: rest => s +:+ sep +:+ join sep rest
  end.

(** [a ?? b]. *)
Definition nullish {A} (a b : option A) : option A :=
  match a with
  | Some v => Some v
  | None => b
  end.

(** [String.prototype.startsWith]. *)
Definition startsWith (s p : string) : bool := String.prefix p s.

(** Side conditions that hold by assumption or by computation, and list
    membership by cases. *)
Ltac side := first [assumption | exact I | reflexivity].
Ltac mem := rewrite ?elem_of_cons; auto.

(** A call either returns or throws. *)
Inductive Outcome (A E : Type) :=
| Returned (a : A)
| Threw (e : E).
Arguments Returned {A E} a.
Arguments Threw {A E} e.

(** ** src/core/spawn/src/spawn.ts *)
Module Spawn.

Inductive SpawnInput := InputBuffer (bytes : string) | InputInherit.
Inductive SpawnOutput := OutIgnore | OutInherit | OutEcho | OutBuffer.
Inductive Stdio := StdioInherit | StdioPipe | StdioIgnore.

(** [SpawnOptions]; an absent option is [None].  [log] is the sink of the
    [LogEvent]s below; [logCommand] is read as its truthiness. *)
Record SpawnOptions := {
  cwd : option string;
  env : option (gmap string string);
  paths : option (list string);
  input : option SpawnInput;
  output : option SpawnOutput;
  logCommand : option bool;
  allowNonZeroExitCode : option bool;
}.

Definition noOptions : SpawnOptions :=
  {| cwd := None; env := None; paths := None; input := None; output := None;
     logCommand := None; allowNonZeroExitCode := None |}.

(** *** The environment of the child ([crossSpawn]'s third argument) *)

Section ChildEnvironment.
(** [process.env] *)
Variable process_env : gmap string string.
(** [nodePath.dirname(process.execPath)] *)
Variable execDir : string.
(** [npmRunPath({ cwd, path: '' })] of the npm-run-path package. *)
Variable npmRunPath : option string → string.
(** [nodePath.delimiter] *)
Variable delimiter : string.

(** [env?.PATH ?? process.env.PATH] *)
Definition inheritedPATH (o : SpawnOptions) : option string :=
  nullish (e ← env o; e !! "PATH") (process_env !! "PATH").

(** The array literal of the [PATH] property, before the filter. *)
Definition pathEntries (o : SpawnOptions) : list (option string) :=
  [Some execDir; Some (npmRunPath (cwd o)); inheritedPATH o]
    ++ (Some <$> default [] (paths o)).

(** [[...].filter(Boolean)]: the truthy entries, in order. *)
Definition filterBoolean (l : list (option string)) : list string :=
  omap (λ v, if truthy v then v else None) l.

(** [[...].filter(Boolean).join(nodePath.delimiter)] *)
Definition childPATH (o : SpawnOptions) : string :=
  join delimiter (filterBoolean (pathEntries o)).

(** The [env] handed to [crossSpawn]:
    [{ ...process.env, ...env, PATH: ... }]. *)
Definition childEnv (o : SpawnOptions) : gmap string string :=
  <["PATH" := childPATH o]> (default ∅ (env o) ∪ process_env).

(** The [stdio] triple handed to [crossSpawn]. *)
Definition childStdio (o : SpawnOptions) : Stdio * Stdio * Stdio :=
  let out :=
    match default OutBuffer (output o) with
    | OutIgnore => StdioIgnore
    | OutInherit => StdioInherit
    | _ => StdioPipe
    end in
  (match input o with
   | Some InputInherit => StdioInherit
   | Some (InputBuffer _) => StdioPipe
   | None => StdioIgnore
   end, out, out).

(** The order of [PATH] as the specification words it: runtime directory,
    local-bin path, caller-supplied entries, inherited PATH; joined, empty
    segments removed. *)
Definition specPATH (o : SpawnOptions) : string :=
  join delimiter
    (filterBoolean
       ([Some execDir; Some (npmRunPath (cwd o))]
          ++ (Some <$> default [] (paths o)) ++ [inheritedPATH o])).

End ChildEnvironment.

(** *** The [close] and [error] handlers of the child *)

Inductive Stream := Stdout | Stderr.

(** One element of [data]. *)
Record Chunk := { stream : Stream; chunk : string }.

(** [new SpawnExitCodeError(cmd, exitCode, signalCode)]: the class is declared
    in error.ts, outside the sources at hand; the record keeps the
    constructor's arguments. *)
Record SpawnExitCodeError := {
  error_cmd : string;
  error_exitCode : option Z;
  error_signalCode : option string;
}.

(** The error object of the child's [error] event. *)
Record ChildError := { code : option string; message : string }.

Inductive SpawnError :=
| ExitCodeError (e : SpawnExitCodeError)
| RequiredError (msg : string) (code : option string) (cause : ChildError)
| LaunchError (e : ChildError).

(** [SpawnResult]: the getters read [data]; [exitCode] holds the value of the
    handler's variable [exitCode], of type [number | null]. *)
Record SpawnResult := {
  data : list Chunk;
  exitCode : option Z;
  signalCode : option string;
  ok : bool;
}.

(** [Buffer.concat(chunks)] *)
Definition concatChunks (l : list Chunk) : string :=
  foldr (λ c acc, chunk c +:+ acc) "" l.

Definition isStdout (c : Chunk) : bool :=
  match stream c with Stdout => true | Stderr => false end.

(** The getters [stdout], [stderr] and [combined]. *)
Definition stdout (r : SpawnResult) : string :=
  concatChunks (List.filter isStdout (data r)).
Definition stderr (r : SpawnResult) : string :=
  concatChunks (List.filter (λ c, negb (isStdout c)) (data r)).
Definition combined (r : SpawnResult) : string := concatChunks (data r).

(** What the handler sends to the log: [log.flush()], the command line, and
    the buffered output (the logger receives its decoded, trimmed text). *)
Inductive LogEvent :=
| LogFlush
| LogPrintCommand (cmd : string) (args : list string)
| LogPrintBuffered (bytes : string).

Inductive Settlement :=
| Resolve (r : SpawnResult)
| Reject (e : SpawnError).

(** [exitCode ??= 1] *)
Definition nullishAssign {A} (x : option A) (d : A) : option A :=
  match x with
  | Some v => Some v
  | None => Some d
  end.

(** [logCommand = output === 'echo' || output === 'inherit'] by default. *)
Definition logCommandOf (o : SpawnOptions) : bool :=
  match logCommand o with
  | Some b => b
  | None =>
      match default OutBuffer (output o) with
      | OutEcho | OutInherit => true
      | _ => false
      end
  end.

(** [cp.on('close', (exitCode, signalCode) => ...)] *)
Definition onClose (cmd : string) (args : list string) (o : SpawnOptions)
    (data : list Chunk) (exitCode : option Z) (signalCode : option string)
    : list LogEvent * Settlement :=
  let exitCode := nullishAssign exitCode 1%Z in
  if negb (bool_decide (exitCode = Some 0%Z))
     && negb (default false (allowNonZeroExitCode o))
  then
    ([LogFlush]
       ++ (match data with
           | [] => []
           | _ =>
               (if logCommandOf o then [] else [LogPrintCommand cmd args])
                 ++ [LogPrintBuffered (concatChunks data)]
           end),
     Reject (ExitCodeError
               {| error_cmd := cmd; error_exitCode := exitCode;
                  error_signalCode := signalCode |}))
  else
    ([LogFlush],
     Resolve {| data := data; exitCode := exitCode; signalCode := signalCode;
                ok := bool_decide (exitCode = Some 0%Z) |}).

(** [cp.on('error', (error) => ...)] *)
Definition onError (cmd : string) (error : ChildError) : Settlement :=
  if bool_decide (code error = Some "ENOENT")
  then Reject (RequiredError (cmd +:+ " is required") (code error) error)
  else Reject (LaunchError error).

(** *** The registry of promises and [spawn]

    The module-level object [promises] holds [all], the set of promises in
    flight, and [blocking].  A promise is named by the index at which [spawn]
    created it; [created] is the table of the promises made so far, each with
    the promises its [Promise.allSettled] was given ([waits]) and how far it
    got: [Waiting] for [allSettled], [Running] once the [then] callback has
    called [spawnAsync], [Settled] once the child has closed or failed. *)

Inductive Status := Waiting | Running | Settled.

Record Op := {
  exclusive : bool;
  waits : gset nat;
  status : Status;
}.

Record Loop := {
  all : gset nat;
  blocking : option nat;
  created : list Op;
}.

Definition initial : Loop := {| all := ∅; blocking := None; created := [] |}.

(** [options.input === 'inherit' || options.output === 'inherit'] *)
Definition inheritsStream (o : SpawnOptions) : bool :=
  match input o, output o with
  | Some InputInherit, _ => true
  | _, Some OutInherit => true
  | _, _ => false
  end.

(** [[promises.blocking]] as the set of promises in it. *)
Definition blockingSet (s : Loop) : gset nat :=
  match blocking s with
  | Some b => {[ b ]}
  | None => ∅
  end.

(** The synchronous body of [spawn]: the new promise and the registry after
    the call. *)
Definition spawn (o : SpawnOptions) (s : Loop) : nat * Loop :=
  let promise := length (created s) in
  if inheritsStream o then
    (promise,
     {| all := all s ∪ {[ promise ]};
        blocking := Some promise;
        created := created s ++
          [{| exclusive := true; waits := all s; status := Waiting |}] |})
  else
    (promise,
     {| all := all s ∪ {[ promise ]};
        blocking := blocking s;
        created := created s ++
          [{| exclusive := false; waits := blockingSet s;
              status := Waiting |}] |}).

Definition statusOf (s : Loop) (p : nat) : option Status :=
  status <$> created s !! p.

Definition isSettled (s : Loop) (p : nat) : bool :=
  match statusOf s p with
  | Some Settled => true
  | _ => false
  end.

Definition isRunning (s : Loop) (p : nat) : bool :=
  match statusOf s p with
  | Some Running => true
  | _ => false
  end.

Definition withStatus (st : Status) (o : Op) : Op :=
  {| exclusive := exclusive o; waits := waits o; status := st |}.

Definition setStatus (p : nat) (st : Status) (s : Loop) : Loop :=
  {| all := all s;
     blocking := blocking s;
     created := alter (withStatus st) p (created s) |}.

(** What the event loop can do next. *)
Inductive Event :=
| Request (o : SpawnOptions)
| Start (p : nat)
| Settle (p : nat)
| FinallyBlocking (p : nat)
| FinallyAll (p : nat).

(** - [Request o]: some code calls [spawn(cmd, args, o)].
    - [Start p]: every promise given to [allSettled] has settled, and the
      [then] callback calls [spawnAsync], which starts the child.
    - [Settle p]: the child closed or failed, the promise resolves or rejects.
    - [FinallyBlocking p]: the first [finally] callback of an exclusive
      promise: [if (promises.blocking === promise) promises.blocking =
      undefined].
    - [FinallyAll p]: the second one: [promises.all.delete(promise)].

    A step may be taken whenever its guard holds, after any delay and in
    any order.  The event loop takes these steps in some of these orders
    (each callback some ticks after its promise has settled), so its runs
    are among the runs defined here, and what holds of every registry that
    is reachable here holds in the program. *)
Definition step (s : Loop) (e : Event) : option Loop :=
  match e with
  | Request o => Some (spawn o s).2
  | Start p =>
      match created s !! p with
      | Some o =>
          match status o with
          | Waiting =>
              if bool_decide (set_Forall (λ w, isSettled s w = true) (waits o))
              then Some (setStatus p Running s)
              else None
          | _ => None
          end
      | None => None
      end
  | Settle p =>
      if isRunning s p then Some (setStatus p Settled s) else None
  | FinallyBlocking p =>
      match created s !! p with
      | Some o =>
          if exclusive o && isSettled s p then
            Some {| all := all s;
                    blocking :=
                      if bool_decide (blocking s = Some p) then None
                      else blocking s;
                    created := created s |}
          else None
      | None => None
      end
  | FinallyAll p =>
      if isSettled s p then
        Some {| all := all s ∖ {[ p ]}; blocking := blocking s;
                created := created s |}
      else None
  end.

Fixpoint run (s : Loop) (es : list Event) : option Loop :=
  match es with
  | [] => Some s
  | e :: es => s' ← step s e; run s' es
  end.

(** A registry the program can be in. *)
Definition reachable (s : Loop) : Prop := ∃ es, run initial es = Some s.

(** Observations of a promise [p]: the promises its [allSettled] was given,
    whether it asked for exclusive streams, and how far it got. *)
Definition waitsOf (s : Loop) (p : nat) : gset nat :=
  default ∅ (waits <$> created s !! p).

Definition isExclusive (s : Loop) (p : nat) : bool :=
  default false (exclusive <$> created s !! p).

Definition hasStarted (s : Loop) (p : nat) : bool :=
  match statusOf s p with
  | Some Running | Some Settled => true
  | _ => false
  end.

Definition unsettled (s : Loop) (p : nat) : bool :=
  match statusOf s p with
  | Some Waiting | Some Running => true
  | _ => false
  end.

Ltac observers := unfold isSettled, hasStarted, unsettled in *.

(** What every reachable registry satisfies. *)
Record invariant (s : Loop) : Prop := {
  inv_all : ∀ p, unsettled s p = true → p ∈ all s;
  inv_started :
    ∀ p w, hasStarted s p = true → w ∈ waitsOf s p → isSettled s w = true;
  inv_blocking :
    ∀ p, isExclusive s p = true → unsettled s p = true →
         ∃ b, blocking s = Some b ∧ (b = p ∨ p ∈ waitsOf s b);
  inv_later :
    ∀ p q, isExclusive s p = true → unsettled s p = true →
           p < q < length (created s) →
           p ∈ waitsOf s q ∨ ∃ b, b ∈ waitsOf s q ∧ p ∈ waitsOf s b;
  inv_earlier :
    ∀ p q, isExclusive s p = true → q < p → unsettled s q = true →
           q ∈ waitsOf s p;
  inv_all_lt : ∀ p, p ∈ all s → p < length (created s);
  inv_blocking_exclusive :
    ∀ b, blocking s = Some b → isExclusive s b = true;
  inv_older : ∀ p w, w ∈ waitsOf s p → w < p;
}.

(** Options that ask for the terminal, and a run that leaves two plain
    spawns running. *)
Definition inheritOutput : SpawnOptions :=
  {| cwd := None; env := None; paths := None; input := None;
     output := Some OutInherit; logCommand := None;
     allowNonZeroExitCode := None |}.

Definition twoRunning : list Event :=
  [Request noOptions; Start 0; Request noOptions; Start 1].

(** The specification's scenario: Y and Z are running, X asks for exclusive
    streams, Y and Z settle, X starts, W is requested. *)
Definition scenario : list Event :=
  twoRunning
    ++ [Request inheritOutput; Settle 0; FinallyAll 0; Settle 1;
        FinallyAll 1; Start 2; Request noOptions].

(** The registry after a run from the initial one ([initial] itself when a
    step of the run is not enabled). *)
Definition after (es : list Event) : Loop := default initial (run initial es).

(** The entry [spawn] adds to [created]. *)
Definition newOp (o : SpawnOptions) (s : Loop) : Op :=
  if inheritsStream o
  then {| exclusive := true; waits := all s; status := Waiting |}
  else {| exclusive := false; waits := blockingSet s; status := Waiting |}.

End Spawn.

(** ** A model of the semver package, for running examples

    The functions of the semver package are variables of the developments
    below.  To run them on the specification's examples, this module models
    the package on a fragment: a version is [major.minor.patch], three decimal
    numbers without leading zeros; a range is [*], [x], or one version of that
    form behind one of the operators [=], [^], [~], [>], [>=] or none.
    Outside the fragment a version or range counts as invalid. *)
Module Semver.

Definition isDigit (c : ascii) : bool :=
  Nat.leb 48 (nat_of_ascii c) && Nat.leb (nat_of_ascii c) 57.

Fixpoint readDigits (s : string) (acc : N) : option N :=
  match s with
  | "" => Some acc
  | String c r =>
      if isDigit c
      then readDigits r (acc * 10 + N.of_nat (nat_of_ascii c - 48))%N
      else None
  end.

(** A numeric identifier: digits, no leading zero. *)
Definition parseNumber (s : string) : option N :=
  match s with
  | "" => None
  | String "0" (String _ _) => None
  | _ => readDigits s 0%N
  end.

Fixpoint splitDots (s : string) (cur : string) : list string :=
  match s with
  | "" => [String.rev cur]
  | String c r =>
      if Ascii.eqb c "."
      then String.rev cur :: splitDots r ""
      else splitDots r (String c cur)
  end.

Definition Version : Type := N * N * N.

Definition parse (s : string) : option Version :=
  match splitDots s "" with
  | [a; b; c] =>
      a ← parseNumber a; b ← parseNumber b; c ← parseNumber c;
      Some (a, b, c)
  | _ => None
  end.

Definition format (v : Version) : string :=
  let '(a, b, c) := v in
  pretty a +:+ "." +:+ pretty b +:+ "." +:+ pretty c.

Definition compareVersion (v w : Version) : comparison :=
  let '(a, b, c) := v in
  let '(a', b', c') := w in
  match N.compare a a' with
  | Eq => match N.compare b b' with
          | Eq => N.compare c c'
          | r => r
          end
  | r => r
  end.

Definition leVersion (v w : Version) : bool :=
  match compareVersion v w with Gt => false | _ => true end.
Definition ltVersion (v w : Version) : bool :=
  match compareVersion v w with Lt => true | _ => false end.

Inductive Operator := OpNone | OpEq | OpCaret | OpTilde | OpGt | OpGe.

Definition splitOperator (s : string) : Operator * string :=
  match s with
  | String ">" (String "=" r) => (OpGe, r)
  | String ">" r => (OpGt, r)
  | String "=" r => (OpEq, r)
  | String "^" r => (OpCaret, r)
  | String "~" r => (OpTilde, r)
  | _ => (OpNone, s)
  end.

(** The first version above a caret range. *)
Definition caretUpper (v : Version) : Version :=
  let '(a, b, c) := v in
  if negb (N.eqb a 0) then (a + 1, 0, 0)%N
  else if negb (N.eqb b 0) then (0, b + 1, 0)%N
  else (0, 0, c + 1)%N.

Definition tildeUpper (v : Version) : Version :=
  let '(a, b, c) := v in (a, b + 1, 0)%N.

Definition test (op : Operator) (base v : Version) : bool :=
  match op with
  | OpNone | OpEq => leVersion base v && leVersion v base
  | OpCaret => leVersion base v && ltVersion v (caretUpper base)
  | OpTilde => leVersion base v && ltVersion v (tildeUpper base)
  | OpGt => ltVersion base v
  | OpGe => leVersion base v
  end.

Definition isAny (range : string) : bool :=
  String.eqb range "*" || String.eqb range "x".

(** [semver.satisfies(version, range)]: false when either is invalid. *)
Definition satisfies (version range : string) : bool :=
  match parse version with
  | None => false
  | Some v =>
      if isAny range then true
      else
        let '(op, r) := splitOperator range in
        match parse r with
        | Some base => test op base v
        | None => false
        end
  end.

(** [semver.minVersion(range)], formatted; [None] is [null]. *)
Definition minVersion (range : string) : option string :=
  if isAny range then Some "0.0.0"
  else
    let '(op, r) := splitOperator range in
    match parse r with
    | Some (a, b, c) =>
        match op with
        | OpGt => Some (format (a, b, c + 1)%N)
        | _ => Some (format (a, b, c))
        end
    | None => None
    end.

(** [semver.compare(a, b)] on valid versions; [None] when it throws. *)
Definition compare (a b : string) : option comparison :=
  v ← parse a; w ← parse b; Some (compareVersion v w).

Inductive ReleaseType :=
| major | minor | patch | premajor | preminor | prepatch | prerelease.

Definition prereleaseSuffix (preid : option string) : string :=
  match preid with
  | Some id => if String.eqb id "" then "-0" else "-" +:+ id +:+ ".0"
  | None => "-0"
  end.

(** [new SemVer(version).inc(releaseType, preid).format()]; [None] when the
    constructor throws. *)
Definition inc (version : string) (releaseType : ReleaseType)
    (preid : option string) : option string :=
  match parse version with
  | None => None
  | Some (a, b, c) =>
      Some match releaseType with
           | major => format (a + 1, 0, 0)%N
           | minor => format (a, b + 1, 0)%N
           | patch => format (a, b, c + 1)%N
           | premajor => format (a + 1, 0, 0)%N +:+ prereleaseSuffix preid
           | preminor => format (a, b + 1, 0)%N +:+ prereleaseSuffix preid
           | prepatch | prerelease =>
               format (a, b, c + 1)%N +:+ prereleaseSuffix preid
           end
  end.

End Semver.

(** ** The range-sync pass (src/unnamed/part_001, [getUpdatePatches]) *)
Module Sync.

(** *** The pattern of the range's prefix

    [/^([=^~]|>=?)?\d+(?:\.\d+(?:\.\d+(?:-PRE)?)?)?$/u], where PRE stands for
    the class [[^\s|=<>^~]] under a star. *)

(** [\d] *)
Definition isDigit (c : ascii) : bool :=
  Nat.leb 48 (nat_of_ascii c) && Nat.leb (nat_of_ascii c) 57.

(** [\s], on code units below 256: tab, line feed, vertical tab, form feed,
    carriage return, space and no-break space. *)
Definition isSpace (c : ascii) : bool :=
  let n := nat_of_ascii c in
  (Nat.leb 9 n && Nat.leb n 13) || Nat.eqb n 32 || Nat.eqb n 160.

(** [[^\s|=<>^~]] *)
Definition isPrereleaseChar (c : ascii) : bool :=
  negb (isSpace c
        || Ascii.eqb c "|" || Ascii.eqb c "=" || Ascii.eqb c "<"
        || Ascii.eqb c ">" || Ascii.eqb c "^" || Ascii.eqb c "~").

Fixpoint skipDigits (s : string) : string :=
  match s with
  | String c r => if isDigit c then skipDigits r else s
  | "" => ""
  end.

(** [\d+], greedy: what follows the digits, when there is one digit at
    least.  A shorter run of digits would leave a digit where the pattern
    wants a dot, a dash or the end, so the longest run is the only one that
    can match. *)
Definition digits (s : string) : option string :=
  match s with
  | String c r => if isDigit c then Some (skipDigits r) else None
  | "" => None
  end.

(** The class [[^\s|=<>^~]] under a star, then [$]. *)
Fixpoint prereleaseToEnd (s : string) : bool :=
  match s with
  | String c r => isPrereleaseChar c && prereleaseToEnd r
  | "" => true
  end.

(** [\d+(?:\.\d+(?:\.\d+(?:-PRE)?)?)?$] *)
Definition matchVersion (s : string) : bool :=
  match digits s with
  | None => false
  | Some "" => true
  | Some (String "." r1) =>
      match digits r1 with
      | None => false
      | Some "" => true
      | Some (String "." r2) =>
          match digits r2 with
          | None => false
          | Some "" => true
          | Some (String "-" r3) => prereleaseToEnd r3
          | Some _ => false
          end
      | Some _ => false
      end
  | Some _ => false
  end.

(** [([=^~]|>=?)?]: the group's capture and what follows it.  The version
    starts with a digit, so giving back the [=] of [>=], or the whole group,
    cannot turn a failure into a match. *)
Definition splitPrefix (s : string) : option string * string :=
  match s with
  | String ">" (String "=" r) => (Some ">=", r)
  | String ">" r => (Some ">", r)
  | String "=" r => (Some "=", r)
  | String "^" r => (Some "^", r)
  | String "~" r => (Some "~", r)
  | _ => (None, s)
  end.

(** [depRange.match(pattern)]: [None] is [null]; of a match, the capture of
    group 1 ([None] when the group took no part). *)
Definition rangeMatch (depRange : string) : option (option string) :=
  let '(p, r) := splitPrefix depRange in
  if matchVersion r then Some p else None.

(** [depRange.match(pattern)?.[1] ?? '^'] *)
Definition prefixOf (depRange : string) : string :=
  default "^" (mjoin (rangeMatch depRange)).

(** *** The workspace and the patch *)

Inductive Scope :=
| dependencies
| peerDependencies
| optionalDependencies
| devDependencies.

Definition scopeName (scope : Scope) : string :=
  match scope with
  | dependencies => "dependencies"
  | peerDependencies => "peerDependencies"
  | optionalDependencies => "optionalDependencies"
  | devDependencies => "devDependencies"
  end.

(** The order of the [for] loop over the scopes. *)
Definition scopes : list Scope :=
  [dependencies; peerDependencies; optionalDependencies; devDependencies].

(** The four dependency objects of a [Workspace]. *)
Record Workspace := {
  ws_dependencies : gmap string string;
  ws_peerDependencies : gmap string string;
  ws_optionalDependencies : gmap string string;
  ws_devDependencies : gmap string string;
}.

(** [workspace[scope]] *)
Definition scopeOf (workspace : Workspace) (scope : Scope)
    : gmap string string :=
  match scope with
  | dependencies => ws_dependencies workspace
  | peerDependencies => ws_peerDependencies workspace
  | optionalDependencies => ws_optionalDependencies workspace
  | devDependencies => ws_devDependencies workspace
  end.

(** A [PackageJson] patch: scope name to dependency name to range. *)
Abbreviation PackageJson := (gmap string (gmap string string)).

(** [packagePatch?.[scope]?.[depName]] *)
Definition patchLookup (packagePatch : option PackageJson)
    (scope depName : string) : option string :=
  p ← packagePatch; deps ← p !! scope; deps !! depName.

(** [{ ...packagePatch, [scope]: { ...packagePatch?.[scope],
       [depName]: newDepRange } }] *)
Definition patchEntry (scope depName newDepRange : string)
    (packagePatch : option PackageJson) : option PackageJson :=
  Some (<[scope :=
            <[depName := newDepRange]>
              (default ∅ (p ← packagePatch; p !! scope))]>
          (default ∅ packagePatch)).

(** [`${minVersion(depRange)}`]: [null] prints as the word null. *)
Definition template (v : option string) : string := default "null" v.

Section GetUpdatePatches.
(** [semver.satisfies] *)
Variable satisfies : string → string → bool.
(** [semver.minVersion], formatted.  The package throws on a range it cannot
    read; the call below stands behind [satisfies(update.version, depRange)],
    which is false for such a range. *)
Variable minVersion : string → option string.
(** The module-level map [dependencyUpdates], name to [version]. *)
Variable dependencyUpdates : gmap string string.

(** [depRange === '*' || depRange === 'x' || depRange.startsWith('file:')] *)
Definition notUpdatable (depRange : string) : bool :=
  String.eqb depRange "*" || String.eqb depRange "x"
  || startsWith depRange "file:".

(** An entry the pass processes, that is, does not skip at once: there is
    an update for the dependency, and the range is an updatable one. *)
Definition processed (depName depRange : string) : Prop :=
  is_Some (dependencyUpdates !! depName) ∧ notUpdatable depRange = false.

(** [`${prefix}${update.version}`] *)
Definition newDepRange (depRange version : string) : string :=
  prefixOf depRange +:+ version.

(** [satisfies(update.version, depRange) &&
     satisfies(update.version, `~${minVersion(depRange)}`)] *)
Definition inconsequential (version depRange : string) : bool :=
  satisfies version depRange
  && satisfies version ("~" +:+ template (minVersion depRange)).

(** The body of the inner loop up to its last statement: [None] where it
    leaves by [continue], the new range where it goes on to patch. *)
Definition updatedRange (strict : bool) (depName depRange : string)
    : option string :=
  match dependencyUpdates !! depName with
  | None => None
  | Some version =>
      if notUpdatable depRange then None
      else if String.eqb (newDepRange depRange version) depRange then None
      else if negb strict && inconsequential version depRange then None
      else Some (newDepRange depRange version)
  end.

(** One turn of the inner loop. *)
Definition visitEntry (strict : bool) (scope : Scope)
    (packagePatch : option PackageJson) (entry : string * string)
    : option PackageJson :=
  match updatedRange strict entry.1 entry.2 with
  | None => packagePatch
  | Some new => patchEntry (scopeName scope) entry.1 new packagePatch
  end.

(** One turn of the outer loop, over [Object.entries(workspace[scope])]. *)
Definition visitScope (strict : bool) (workspace : Workspace)
    (packagePatch : option PackageJson) (scope : Scope)
    : option PackageJson :=
  foldl (visitEntry strict scope) packagePatch
    (map_to_list (scopeOf workspace scope)).

(** [getUpdatePatches(log, workspace, { strict })]; [None] is [undefined]. *)
Definition getUpdatePatches (strict : bool) (workspace : Workspace)
    : option PackageJson :=
  foldl (visitScope strict workspace) None scopes.

(** The range of a dependency once the patch is applied to the manifest. *)
Definition rangeAfter (strict : bool) (workspace : Workspace)
    (scope : Scope) (depName depRange : string) : string :=
  default depRange
    (patchLookup (getUpdatePatches strict workspace) (scopeName scope)
       depName).

End GetUpdatePatches.

(** A workspace with [dependencies] only, for the examples. *)
Definition dependenciesOnly (deps : gmap string string) : Workspace :=
  {| ws_dependencies := deps; ws_peerDependencies := ∅;
     ws_optionalDependencies := ∅; ws_devDependencies := ∅ |}.



(** *** The specification's reading of the pattern *)

(** How a string starts, and what it is made of. *)
Definition digitsOnly (s : string) : Prop :=
  ∀ c, In c (list_ascii_of_string s) → isDigit c = true.

Definition startsNoDigit (s : string) : Prop :=
  match s with
  | "" => True
  | String c _ => isDigit c = false
  end.

Definition startsDigit (s : string) : Prop :=
  match s with
  | "" => False
  | String c _ => isDigit c = true
  end.



(** One of [=], [^], [~], [>], [>=]. *)
Definition operators : list string := ["="; "^"; "~"; ">"; ">="].

Definition allDigits (s : string) : Prop :=
  s ≠ "" ∧ ∀ c, In c (list_ascii_of_string s) → isDigit c = true.

Definition prereleaseText (s : string) : Prop :=
  ∀ c, In c (list_ascii_of_string s) → isPrereleaseChar c = true.

(** A bare or partial semantic version: [1], [1.2], [1.2.3] or
    [1.2.3-tag]. *)
Inductive partialVersion : string → Prop :=
| pv_major a : allDigits a → partialVersion a
| pv_minor a b :
    allDigits a → allDigits b → partialVersion (a +:+ "." +:+ b)
| pv_patch a b c :
    allDigits a → allDigits b → allDigits c →
    partialVersion (a +:+ "." +:+ b +:+ "." +:+ c)
| pv_prerelease a b c t :
    allDigits a → allDigits b → allDigits c → prereleaseText t →
    partialVersion (a +:+ "." +:+ b +:+ "." +:+ c +:+ "-" +:+ t).

(** The prefix the specification derives: the operator in front of a bare or
    partial version, and [^] when there is none. *)
Inductive specPrefix (depRange : string) : string → Prop :=
| sp_operator op v :
    In op operators → partialVersion v → depRange = op +:+ v →
    specPrefix depRange op
| sp_default :
    (∀ op v, In op operators → partialVersion v → depRange ≠ op +:+ v) →
    specPrefix depRange "^".

End Sync.

(** ** The bump strategy (src/unnamed/part_002, [bump]) *)
Module Bump.

(** Modelled from the spec: the JSON document accessor of @wurk/json is not
    among the sources.  The specification gives it a field store and a flag
    [isModified], set whenever a field is patched. *)
Record Config := {
  fields : gmap string string;
  isModified : bool;
}.

(** [config.at(key).set(value)] *)
Definition set (key value : string) (config : Config) : Config :=
  {| fields := <[key := value]> (fields config); isModified := true |}.

(** The parts of a [Workspace] that [bump] reads. *)
Record Workspace := {
  version : option string;
  config : Config;
}.

(** What [bump] leaves behind: the config document and the lines sent to
    [log.debug]. *)
Record Effect := {
  config_after : Config;
  debug : list string;
}.

Section Strategy.
(** [semver.ReleaseType] *)
Variable ReleaseType : Type.
(** [new semver.SemVer(version).inc(releaseType, preid).format()]; [None]
    when the package throws. *)
Variable inc : string → ReleaseType → option string → option string.

Record Options := {
  releaseType : ReleaseType;
  preid : option string;
}.

(** [!version]: [undefined] and the empty string are falsy. *)
Definition noVersion (version : option string) : bool :=
  negb (truthy version).

(** [bump(workspace, options)] *)
Definition bump (workspace : Workspace) (options : Options)
    : Outcome Effect unit :=
  if noVersion (version workspace) then
    Returned {| config_after := config workspace;
                debug := ["skipping workspace (no version)"] |}
  else
    match inc (default "" (version workspace)) (releaseType options)
            (preid options) with
    | Some next =>
        Returned {| config_after := set "version" next (config workspace);
                    debug := [] |}
    | None => Threw ()
    end.

End Strategy.

Arguments releaseType {ReleaseType} _.
Arguments preid {ReleaseType} _.
Arguments Build_Options {ReleaseType} _ _.

End Bump.

(** ** JSON values, as [JSON.parse] and the accessor's [unwrap] give them *)
#[warnings="-register-all"]
Inductive Json :=
| JUndefined
| JNull
| JBool (b : bool)
| JNumber (n : Z)
| JString (s : string)
| JArray (items : list Json)
| JObject (members : list (string * Json)).

(** [entry[key]] on an object's own members. *)
Fixpoint member (key : string) (members : list (string * Json))
    : option Json :=
  match members with
  | [] => None
  | (k, v) :: rest => if String.eqb k key then Some v else member key rest
  end.

(** ** The pnpm adapter (src/unnamed/part_003, [Pnpm.getPublished]) *)
Module Pnpm.

(** [PackageMetadata]; [gitHead] is [string | null]. *)
Record PackageMetadata := {
  version : string;
  gitHead : option string;
}.

(** The two properties [getPublished] reads off the spawn result;
    [stdoutJson] is the value [stdoutJson.unwrap()] returns, [JUndefined]
    when the output is no JSON. *)
Record Output := {
  ok : bool;
  stdoutJson : Json;
}.

(** An element that passed the filter: its [version] and its [gitHead]
    property, when it has one. *)
Record Entry := {
  entry_version : string;
  entry_gitHead : option Json;
}.

(** The filter's predicate: [entry != null && typeof entry === 'object' &&
    'version' in entry && typeof entry.version === 'string'].  An array is an
    object with no [version]. *)
Definition asEntry (entry : Json) : option Entry :=
  match entry with
  | JObject members =>
      match member "version" members with
      | Some (JString v) =>
          Some {| entry_version := v;
                  entry_gitHead := member "gitHead" members |}
      | _ => None
      end
  | _ => None
  end.

(** [Array.isArray(value) ? value : [value]] *)
Definition asArray (value : Json) : list Json :=
  match value with
  | JArray items => items
  | _ => [value]
  end.

(** *** The registry's answer as the claim reads it, off the JSON *)

(** An entry of the answer: an element of the array when the answer is an
    array, the answer itself when it is not. *)
Inductive listed (answer entry : Json) : Prop :=
| listed_element items :
    answer = JArray items → entry ∈ items → listed answer entry
| listed_alone :
    (∀ items, answer ≠ JArray items) → entry = answer → listed answer entry.

(** The entry is an object whose [version] is the string [v]. *)
Definition versionOf (entry : Json) (v : string) : Prop :=
  ∃ members,
    entry = JObject members ∧ member "version" members = Some (JString v).

(** The [gitHead] of the entry when it is a string, [null] otherwise. *)
Definition gitHeadIn (entry : Json) : option string :=
  match entry with
  | JObject members =>
      match member "gitHead" members with
      | Some (JString s) => Some s
      | _ => None
      end
  | _ => None
  end.

Section GetPublished.
(** [this.rootDir] *)
Variable rootDir : string.
(** [spawn] of @wurk/spawn: the promise resolves or rejects. *)
Variable spawn :
  string → list string → Spawn.SpawnOptions → Outcome Output Spawn.SpawnError.
(** [semver.compare]; [None] when it throws (a version is invalid). *)
Variable compare : string → string → option comparison.

(** [semver.rcompare(a, b)] is [compare(b, a)]. *)
Definition rcompare (a b : string) : option comparison := compare b a.

(** [Array.prototype.sort] with the comparator
    [(a, b) => semver.rcompare(a.version, b.version)], as a stable insertion
    sort that calls the comparator; [None] when a call throws.  An array of
    one element or none is returned without a call. *)
Fixpoint insertEntry (x : Entry) (sorted : list Entry)
    : option (list Entry) :=
  match sorted with
  | [] => Some [x]
  | y :: rest =>
      c ← rcompare (entry_version x) (entry_version y);
      match c with
      | Gt => rest' ← insertEntry x rest; Some (y :: rest')
      | _ => Some (x :: y :: rest)
      end
  end.

Fixpoint sortEntries (l : list Entry) : option (list Entry) :=
  match l with
  | [] => Some []
  | x :: rest => sorted ← sortEntries rest; insertEntry x sorted
  end.

(** The arguments of the registry query. *)
Definition infoArgs (id version : string) : list string :=
  ["info"; "--quiet"; "--json"; id +:+ "@<=" +:+ version; "version";
   "gitHead"].

Definition infoOptions : Spawn.SpawnOptions :=
  {| Spawn.cwd := Some rootDir; Spawn.env := None; Spawn.paths := None;
     Spawn.input := None; Spawn.output := None; Spawn.logCommand := None;
     Spawn.allowNonZeroExitCode := Some true |}.

(** [typeof info.gitHead === 'string' ? info.gitHead : null] *)
Definition gitHeadOf (info : Entry) : option string :=
  match entry_gitHead info with
  | Some (JString s) => Some s
  | _ => None
  end.

Inductive Failure :=
| SpawnRejected (e : Spawn.SpawnError)
| InvalidVersion.

(** [getPublished(id, version)] *)
Definition getPublished (id version : string)
    : Outcome (option PackageMetadata) Failure :=
  match spawn "pnpm" (infoArgs id version) infoOptions with
  | Threw e => Threw (SpawnRejected e)
  | Returned out =>
      if negb (ok out) then Returned None
      else
        match sortEntries (omap asEntry (asArray (stdoutJson out))) with
        | None => Threw InvalidVersion
        | Some [] => Returned None
        | Some (info :: _) =>
            Returned (Some {| version := entry_version info;
                              gitHead := gitHeadOf info |})
        end
  end.

(** The entries of the query's answer that carry a string version. *)
Definition validEntries (out : Output) : list Entry :=
  omap asEntry (asArray (stdoutJson out)).

(** [a] is not above [b]. *)
Definition notAbove (a b : string) : Prop :=
  compare a b = Some Lt ∨ compare a b = Some Eq.

(** Every two versions of the list can be compared. *)
Definition comparable (l : list Entry) : Prop :=
  ∀ e e', e ∈ l → e' ∈ l →
          is_Some (compare (entry_version e) (entry_version e')).

(** The head of the list is not below any of its elements. *)
Definition headHighest (l : list Entry) : Prop :=
  match l with
  | [] => True
  | h :: _ => ∀ e, e ∈ l → notAbove (entry_version e) (entry_version h)
  end.

End GetPublished.

(** The registry's answer to [a@<=2.0.0] in the examples: three entries with
    a version, two values that are no entries. *)
Definition registryAnswer : Json :=
  JArray
    [JObject [("version", JString "1.2.0"); ("gitHead", JString "abc")];
     JObject [("version", JString "1.10.0"); ("gitHead", JNumber 5)];
     JString "junk";
     JObject [("version", JString "1.9.0"); ("gitHead", JString "def")];
     JNull].

Definition registry (cmd : string) (args : list string)
    (o : Spawn.SpawnOptions) : Outcome Output Spawn.SpawnError :=
  Returned {| ok := true; stdoutJson := registryAnswer |}.

(** An answer whose highest entry, 1.10.0, has a string [gitHead]; one entry
    has a [gitHead] that is no string, two values are no entries. *)
Definition publishedAnswer : Json :=
  JArray
    [JObject [("version", JString "1.2.0"); ("gitHead", JString "abc")];
     JString "junk";
     JObject [("version", JString "1.10.0"); ("gitHead", JString "f00d")];
     JObject [("version", JString "1.9.0"); ("gitHead", JNumber 5)];
     JNull].

Definition publishedRegistry (cmd : string) (args : list string)
    (o : Spawn.SpawnOptions) : Outcome Output Spawn.SpawnError :=
  Returned {| ok := true; stdoutJson := publishedAnswer |}.

(** An answer with a version that is no semantic version. *)
Definition taggedAnswer : Json :=
  JArray [JObject [("version", JString "next")];
          JObject [("version", JString "1.0.0")]].

Definition taggedRegistry (cmd : string) (args : list string)
    (o : Spawn.SpawnOptions) : Outcome Output Spawn.SpawnError :=
  Returned {| ok := true; stdoutJson := taggedAnswer |}.

End Pnpm.

(** ** The command-plugin loader (src/core/wurk/src/command.ts,
       [loadCommandPlugin] and [loadCommandPlugins]) *)
Module Plugins.

(** [.] of a pattern without the [s] flag takes no line terminator. *)
Definition isLineTerminator (c : ascii) : bool :=
  Ascii.eqb c "010" || Ascii.eqb c "013".

Fixpoint noLineTerminator (s : string) : bool :=
  match s with
  | "" => true
  | String c r => negb (isLineTerminator c) && noLineTerminator r
  end.

(** [w[eu]rk-command-] at the head. *)
Definition commandHead (s : string) : bool :=
  startsWith s "werk-command-" || startsWith s "wurk-command-".

(** [.*\/] and then [w[eu]rk-command-], somewhere. *)
Fixpoint commandAfterSlash (s : string) : bool :=
  match s with
  | "" => false
  | String c r => (Ascii.eqb c "/" && commandHead r) || commandAfterSlash r
  end.

(** [/^(?:(?:.*\/)?w[eu]rk-command-|@(?:werk|wurk)\/command-).*$/u.test] *)
Definition isCommandPackage (packageId : string) : bool :=
  noLineTerminator packageId
  && (commandHead packageId || commandAfterSlash packageId
      || startsWith packageId "@werk/command-"
      || startsWith packageId "@wurk/command-").

(** What [loadCommandPlugins] reads off the root package's config:
    [wurk.commands] as an array, and the keys of the four dependency
    objects. *)
Record RootPackage := {
  wurk_commands : list Json;
  dependencies : list string;
  devDependencies : list string;
  peerDependencies : list string;
  optionalDependencies : list string;
}.

(** [typeof value === 'string'] *)
Definition asString (value : Json) : option string :=
  match value with
  | JString s => Some s
  | _ => None
  end.

(** [Array.from(new Set([...])).sort()]: without repeats, in the order of
    the code units. *)
Definition packageIds (rootPackage : RootPackage) : list string :=
  merge_sort String.le
    (remove_dups
       (List.filter isCommandPackage
          (dependencies rootPackage ++ devDependencies rootPackage
             ++ peerDependencies rootPackage
             ++ optionalDependencies rootPackage)
          ++ omap asString (wurk_commands rootPackage))).

Section Loader.
(** A JS value, the config of a module, and what a [throw] carries. *)
Variables Value ModuleConfig Thrown : Type.
(** [isCommand] of command.ts (the version at hand does not declare it). *)
Variable isCommand : Value → bool.

(** [moduleExports.default]: a function or not. *)
Inductive DefaultExport :=
| NotAFunction
| Factory (call : ModuleConfig → Outcome Value Thrown).

Record ImportResult := {
  moduleExports_default : DefaultExport;
  moduleConfig : ModuleConfig;
}.

(** [importRelative(packageId, { dir: rootDir })] of @wurk/import. *)
Variable importRelative : string → string → Outcome ImportResult Thrown.

(** An argument of [log.error]. *)
Inductive LogError :=
| ErrorText (text : string)
| ErrorThrown (error : Thrown).

Definition quoted (s : string) : string :=
  String (ascii_of_nat 34) (s +:+ String (ascii_of_nat 34) "").

(** [loadCommandPlugin(rootDir, packageId)]: the command or [null], and the
    lines sent to [log.error]. *)
Definition loadCommandPlugin (rootDir packageId : string)
    : option Value * list LogError :=
  match importRelative packageId rootDir with
  | Threw error =>
      (None,
       [ErrorText ("loading command package " +:+ quoted packageId
                     +:+ " threw the following error:");
        ErrorThrown error])
  | Returned imported =>
      match moduleExports_default imported with
      | NotAFunction =>
          (None,
           [ErrorText ("package " +:+ quoted packageId
                         +:+ " does not export a valid command factory")])
      | Factory call =>
          match call (moduleConfig imported) with
          | Threw error =>
              (None,
               [ErrorText ("loading command package " +:+ quoted packageId
                             +:+ " threw the following error:");
                ErrorThrown error])
          | Returned command =>
              if isCommand command then (Some command, [])
              else
                (None,
                 [ErrorText ("package " +:+ quoted packageId
                               +:+ " command factory returned an invalid command")])
          end
      end
  end.

(** [loadCommandPlugins(rootDir, rootPackage)]: the commands, and the lines
    sent to [log.error], plugin by plugin. *)
Definition loadCommandPlugins (rootDir : string) (rootPackage : RootPackage)
    : list Value * list LogError :=
  let loaded := loadCommandPlugin rootDir <$> packageIds rootPackage in
  (omap fst loaded, concat (snd <$> loaded)).

(** A package loads to a command: the import returns, its default export is
    a function, the function returns, and what it returns is a command. *)
Inductive loadsTo (rootDir packageId : string) (command : Value) : Prop :=
| loads_command imported call :
    importRelative packageId rootDir = Returned imported →
    moduleExports_default imported = Factory call →
    call (moduleConfig imported) = Returned command →
    isCommand command = true →
    loadsTo rootDir packageId command.

(** An error line that names the package. *)
Definition namesPackage (packageId : string) (e : LogError) : Prop :=
  ∃ before after,
    e = ErrorText (before +:+ quoted packageId +:+ after).

End Loader.

Arguments NotAFunction {Value ModuleConfig Thrown}.
Arguments Factory {Value ModuleConfig Thrown} call.
Arguments moduleExports_default {Value ModuleConfig Thrown} _.
Arguments moduleConfig {Value ModuleConfig Thrown} _.
Arguments Build_ImportResult {Value ModuleConfig Thrown} _ _.
Arguments ErrorText {Thrown} text.
Arguments ErrorThrown {Thrown} error.
Arguments namesPackage {Thrown} packageId e.

(** A root package and an importer for the examples: a command is its name,
    and every name but [bad] is a command. *)
Definition exampleRoot : RootPackage :=
  {| wurk_commands :=
       [JString "./local-plugin"; JNumber 3; JString "@wurk/command-run"];
     dependencies := ["@wurk/command-run"; "left-pad"];
     devDependencies := ["werk-command-test"; "@scope/wurk-command-x"; "wurk"];
     peerDependencies := [];
     optionalDependencies := [] |}.

Definition exampleImport (packageId rootDir : string)
    : Outcome (ImportResult string unit string) string :=
  if String.eqb packageId "./local-plugin" then Threw "ERR_MODULE_NOT_FOUND"
  else if String.eqb packageId "@scope/wurk-command-x" then
    Returned {| moduleExports_default := NotAFunction; moduleConfig := () |}
  else if String.eqb packageId "werk-command-test" then
    Returned {| moduleExports_default := Factory (λ _, Returned "bad");
                moduleConfig := () |}
  else
    Returned {| moduleExports_default := Factory (λ _, Returned packageId);
                moduleConfig := () |}.

End Plugins.


(** ** More of the spawn coordinator (src/core/spawn/src/spawn.ts) *)
Module Coordinator.
Import Spawn.

(** A step that lets a promise made earlier get on: no call of [spawn], no
    [finally] callback. *)
Definition isProgress (e : Event) : bool :=
  match e with
  | Start _ | Settle _ => true
  | _ => false
  end.

(** Every promise made so far has settled. *)
Definition allSettled (s : Loop) : Prop :=
  ∀ p, p < length (created s) → isSettled s p = true.

(** A promise without exclusive streams waits for exclusive promises
    only. *)
Definition waitsForExclusive (s : Loop) : Prop :=
  ∀ p w, isExclusive s p = false → w ∈ waitsOf s p → isExclusive s w = true.

End Coordinator.


(** ** [createSpawn] (src/core/spawn/src/spawn.ts) *)
Module CreateSpawn.

(** A property of an object literal: absent ([None]), or present with a
    value, which may be [undefined] ([Some None]).  The spread copies a
    property that is present, whatever its value. *)
Definition Property (A : Type) : Type := option (option A).

(** [object.property]: [undefined] for an absent property too. *)
Definition read {A} (property : Property A) : option A := mjoin property.

(** A [NodeJS.ProcessEnv]: a variable may be present with the value
    [undefined]. *)
Abbreviation EnvObject := (gmap string (option string)).

(** A [SpawnOptions] object as a caller writes it: every property is
    optional. *)
Record Options := {
  cwd : Property string;
  env : Property EnvObject;
  paths : Property (list string);
  input : Property Spawn.SpawnInput;
  output : Property Spawn.SpawnOutput;
  logCommand : Property bool;
  allowNonZeroExitCode : Property bool;
}.

(** The object without properties: what reading [options?.property] of an
    undefined [options] amounts to. *)
Definition noOptions : Options :=
  {| cwd := None; env := None; paths := None; input := None; output := None;
     logCommand := None; allowNonZeroExitCode := None |}.

(** [{ ...defaultOptions, ...options }] on one property: the call's
    property when the call has it, the default's otherwise. *)
Definition spread {A} (defaultProperty property : Property A) : Property A :=
  match property with
  | Some value => Some value
  | None => defaultProperty
  end.

(** [{ ...object.env }]: the variables of [env], none when [env] is
    undefined. *)
Definition envOf (o : Options) : EnvObject := default ∅ (read (env o)).

Section CreateSpawn.
(** [nodePath.resolve(...segments)] *)
Variable resolve : list string → string.
(** [process.env] *)
Variable process_env : gmap string string.
(** [nodePath.dirname(process.execPath)] *)
Variable execDir : string.
(** [npmRunPath({ cwd, path: '' })] of the npm-run-path package. *)
Variable npmRunPath : option string → string.
(** [nodePath.delimiter] *)
Variable delimiter : string.

(** The object [createSpawn]'s function hands to [spawn]; [defaultOptions]
    is what [getDefaultOptions()] returns at this call, [options] may be
    undefined. *)
Definition mergeOptions (defaultOptions : Options) (options : option Options)
    : Options :=
  let call := default noOptions options in
  {| cwd :=
       Some (Some (resolve
                     (Spawn.filterBoolean
                        [read (cwd defaultOptions); read (cwd call)])));
     env := Some (Some (envOf call ∪ envOf defaultOptions));
     paths :=
       Some (Some (default [] (read (paths defaultOptions))
                     ++ default [] (read (paths call))));
     input := spread (input defaultOptions) (input call);
     output := spread (output defaultOptions) (output call);
     logCommand := spread (logCommand defaultOptions) (logCommand call);
     allowNonZeroExitCode :=
       spread (allowNonZeroExitCode defaultOptions)
         (allowNonZeroExitCode call) |}.

(** What [spawnAsync] makes of such an object.
    [env?.PATH ?? process.env.PATH]: a [PATH] that is present and undefined
    gives way to the one of the process. *)
Definition inheritedPATH (o : Options) : option string :=
  nullish (mjoin (envOf o !! "PATH")) (process_env !! "PATH").

(** [[...].filter(Boolean).join(nodePath.delimiter)] *)
Definition childPATH (o : Options) : string :=
  join delimiter
    (Spawn.filterBoolean
       ([Some execDir; Some (npmRunPath (read (cwd o))); inheritedPATH o]
          ++ (Some <$> default [] (read (paths o))))).

(** The [env] handed to [crossSpawn]:
    [{ ...process.env, ...env, PATH: ... }]; a variable that [env] has with
    the value [undefined] has that value in the object. *)
Definition childEnv (o : Options) : EnvObject :=
  <["PATH" := Some (childPATH o)]> (envOf o ∪ (Some <$> process_env)).

End CreateSpawn.

(** The options of [Spawn] as an object: an option that has a value is a
    property with this value. *)
Definition present {A} (value : option A) : Property A :=
  match value with
  | Some v => Some (Some v)
  | None => None
  end.

Definition ofValues (o : Spawn.SpawnOptions) : Options :=
  {| cwd := present (Spawn.cwd o);
     env := present
              (match Spawn.env o with
               | Some e => Some (Some <$> e)
               | None => None
               end);
     paths := present (Spawn.paths o);
     input := present (Spawn.input o);
     output := present (Spawn.output o);
     logCommand := present (Spawn.logCommand o);
     allowNonZeroExitCode := present (Spawn.allowNonZeroExitCode o) |}.

(** Default options and a call for the examples: the call sets [HOME],
    [PATH] and [output] to [undefined]. *)
Definition exampleDefaults : Options :=
  {| cwd := Some (Some "/w");
     env := Some (Some {[ "HOME" := Some "/default";
                          "PATH" := Some "/default/bin" ]});
     paths := None; input := None;
     output := Some (Some Spawn.OutInherit);
     logCommand := None; allowNonZeroExitCode := None |}.

Definition exampleCall : Options :=
  {| cwd := None;
     env := Some (Some {[ "HOME" := None; "PATH" := None ]});
     paths := Some (Some ["/extra"]); input := None;
     output := Some None;
     logCommand := None; allowNonZeroExitCode := None |}.

End CreateSpawn.


(** ** The registry of updates (src/unnamed/part_001, [addUpdate] and
       [getUpdates]) *)
Module Updates.

(** [dependencyUpdates.set(name, { version })] *)
Definition addUpdate (name version : string)
    (dependencyUpdates : gmap string string) : gmap string string :=
  <[name := version]> dependencyUpdates.

(** [getUpdates()]: a fresh map with the same entries. *)
Definition getUpdates (dependencyUpdates : gmap string string)
    : gmap string string :=
  list_to_map (map_to_list dependencyUpdates).

(** A patch object has properties for dependency scopes only, and none of
    them is an empty object. *)
Definition wellFormedPatch (p : gmap string (gmap string string)) : Prop :=
  ∀ sc deps,
    p !! sc = Some deps →
    deps ≠ ∅ ∧ ∃ scope, sc = Sync.scopeName scope.

End Updates.


(** ** The naming convention of command packages, declaratively
       (src/core/wurk/src/command.ts, [loadCommandPlugins]) *)
Module Convention.

(** [w[eu]rk-command-] and what follows. *)
Definition commandName (s : string) : Prop :=
  ∃ rest, s = "werk-command-" +:+ rest ∨ s = "wurk-command-" +:+ rest.

(** [@(?:werk|wurk)\/command-] and what follows. *)
Definition scopedCommandName (s : string) : Prop :=
  ∃ rest, s = "@werk/command-" +:+ rest ∨ s = "@wurk/command-" +:+ rest.

(** The language of the pattern: no line terminator anywhere, and either a
    command name at the start or right after some slash, or a name in the
    scope [@werk] or [@wurk]. *)
Definition matchesConvention (s : string) : Prop :=
  Plugins.noLineTerminator s = true
  ∧ (commandName s
     ∨ (∃ before name, s = before +:+ "/" +:+ name ∧ commandName name)
     ∨ scopedCommandName s).

End Convention.

(** ** The registry's answer in the example of equal versions *)
Module PnpmTies.
Import Pnpm.

(** Two entries of version 1.10.0 with distinct [gitHead]s. *)
Definition tiedAnswer : Json :=
  JArray
    [JObject [("version", JString "1.2.0"); ("gitHead", JString "abc")];
     JObject [("version", JString "1.10.0"); ("gitHead", JString "first")];
     JObject [("version", JString "1.10.0"); ("gitHead", JString "second")];
     JObject [("version", JString "1.9.0"); ("gitHead", JString "def")]].

Definition tiedRegistry (cmd : string) (args : list string)
    (o : Spawn.SpawnOptions) : Outcome Output Spawn.SpawnError :=
  Returned {| ok := true; stdoutJson := tiedAnswer |}.

End PnpmTies.

(** ** The version command's release message
       (src/commands/version/src/command.ts) *)
Module VersionCommand.

(** The rest of a string from its first [/] on; empty when it has none. *)
Fixpoint fromSlash (s : string) : string :=
  match s with
  | "" => ""
  | String c rest => if Ascii.eqb c "/" then s else fromSlash rest
  end.

(** The characters of a string are no [/]. *)
Fixpoint noSlash (s : string) : bool :=
  match s with
  | "" => true
  | String c rest => negb (Ascii.eqb c "/") && noSlash rest
  end.

(** [name.replace(/^@[^/]*/u, '')]: an [@] at the head goes, with all that
    follows it up to the first [/]. *)
Definition stripScope (name : string) : string :=
  match name with
  | String "@" rest => fromSlash rest
  | _ => name
  end.

End VersionCommand.

(** ** The logger (src/unnamed/part_000, class [Log]) *)
Module Log.

(** The keys of [LOG_LEVEL]. *)
Inductive LogLevel := silent | error | warn | notice | info | debug | trace.

Definition LOG_LEVEL (level : LogLevel) : nat :=
  match level with
  | silent => 0
  | error => 10
  | warn => 20
  | notice => 30
  | info => 40
  | debug => 50
  | trace => 60
  end.

Definition levelName (level : LogLevel) : string :=
  match level with
  | silent => "silent"
  | error => "error"
  | warn => "warn"
  | notice => "notice"
  | info => "info"
  | debug => "debug"
  | trace => "trace"
  end.

Definition levels : list LogLevel :=
  [silent; error; warn; notice; info; debug; trace].

(** The key of [LOG_LEVEL] of the given name. *)
Definition ownKey (name : string) : option LogLevel :=
  List.find (λ level, String.eqb (levelName level) name) levels.

(** The properties every object literal inherits from [Object.prototype]:
    [name in LOG_LEVEL] holds for them too. *)
Definition inheritedKeys : list string :=
  ["constructor"; "hasOwnProperty"; "isPrototypeOf"; "propertyIsEnumerable";
   "toLocaleString"; "toString"; "valueOf"; "__proto__";
   "__defineGetter__"; "__defineSetter__"; "__lookupGetter__";
   "__lookupSetter__"].

Definition isInherited (name : string) : bool :=
  existsb (String.eqb name) inheritedKeys.

(** [LOG_LEVEL[name]]: a number for a key of the table, a function or an
    object for an inherited property. *)
Inductive LevelValue :=
| Number (n : nat)
| NotANumber.

(** [getLevel()], from [process.env]. *)
Definition getLevel (process_env : gmap string string)
    : string * LevelValue :=
  match process_env !! "LOG_LEVEL" with
  | Some name =>
      if truthy (Some name) then
        match ownKey name with
        | Some level => (name, Number (LOG_LEVEL level))
        | None =>
            if isInherited name then (name, NotANumber)
            else ("info", Number (LOG_LEVEL info))
        end
      else ("info", Number (LOG_LEVEL info))
  | None => ("info", Number (LOG_LEVEL info))
  end.

(** [threshold <= value]: false when [value] converts to no number. *)
Definition lessEq (threshold : nat) (value : LevelValue) : bool :=
  match value with
  | Number n => Nat.leb threshold n
  | NotANumber => false
  end.

(** The test that guards a method of the given level. *)
Definition enabled (process_env : gmap string string) (level : LogLevel)
    : bool :=
  lessEq (LOG_LEVEL level) (getLevel process_env).2.

Inductive Stream := Stdout | Stderr.

(** The styles of chalk the methods use. *)
Inductive Style := dim | bold | yellowBright | redBright.

(** Carriage return and line feed. *)
Definition CR : ascii := "013"%char.
Definition LF : ascii := "010"%char.

(** [text.split(/\r?\n|\r/gu)] *)
Fixpoint splitLines (text : string) : list string :=
  match text with
  | "" => [""]
  | String c rest =>
      if Ascii.eqb c CR then
        match rest with
        | String d rest' =>
            if Ascii.eqb d LF then "" :: splitLines rest'
            else "" :: splitLines rest
        | "" => "" :: splitLines rest
        end
      else if Ascii.eqb c LF then "" :: splitLines rest
      else
        match splitLines rest with
        | line :: lines => String c line :: lines
        | [] => [String c ""]
        end
  end.

(** [if (lines[lines.length - 1] === '') lines.pop()] *)
Definition popEmpty (lines : list string) : list string :=
  match last lines with
  | Some "" => removelast lines
  | _ => lines
  end.

(** [String.prototype.trimEnd]: white space and line terminators go from
    the end. *)
Fixpoint trimEnd (s : string) : string :=
  match s with
  | "" => ""
  | String c rest =>
      match trimEnd rest with
      | "" => if Sync.isSpace c then "" else String c ""
      | trimmed => String c trimmed
      end
  end.

(** A string without carriage return and line feed. *)
Fixpoint noBreak (s : string) : bool :=
  match s with
  | "" => true
  | String c rest =>
      negb (Ascii.eqb c CR) && negb (Ascii.eqb c LF) && noBreak rest
  end.

(** The three line endings the split knows. *)
Definition isLineEnding (sep : string) : Prop :=
  sep = String LF "" ∨ sep = String CR (String LF "") ∨ sep = String CR "".

(** The string begins with a line feed. *)
Definition startsLF (s : string) : bool :=
  match s with
  | String c _ => Ascii.eqb c LF
  | "" => false
  end.

Section Log.
(** [process.env] *)
Variable process_env : gmap string string.
(** [line.replace(ansiRegex, '')], of the ansi-regex package. *)
Variable stripAnsi : string → string.
(** [chalk.dim] and the like. *)
Variable chalk : Style → string → string.
(** The options of the constructor. *)
Variable prefix : string.
Variable trim : bool.

(** [formatLine], the identity by default. *)
Definition format (style : option Style) (line : string) : string :=
  match style with
  | Some st => chalk st line
  | None => line
  end.

(** The line [#writeLine] hands to [formatLine]. *)
Definition cleaned (line : string) : string := stripAnsi (trimEnd line).

(** [#writeLine(stream, line, formatLine)]: the chunks written. *)
Definition writeLine (stream : Stream) (line : string)
    (style : option Style) : list (Stream * string) :=
  if negb trim || negb (String.eqb (cleaned line) "")
  then [(stream, prefix +:+ format style (cleaned line) +:+ String LF "")]
  else [].

(** The lines [#write] goes through. *)
Definition linesOf (message : option string) : list string :=
  popEmpty (splitLines (default "" message)).

(** [#write(stream, message, formatLine)]; [message] is a string, [null]
    or [undefined]. *)
Definition write (stream : Stream) (message : option string)
    (style : option Style) : list (Stream * string) :=
  flat_map (λ line, writeLine stream line style) (linesOf message).

(** The stream and the style of each method. *)
Definition streamOf (level : LogLevel) : Stream :=
  match level with
  | info => Stdout
  | _ => Stderr
  end.

Definition styleOf (level : LogLevel) : option Style :=
  match level with
  | trace | debug => Some dim
  | notice => Some bold
  | warn => Some yellowBright
  | error => Some redBright
  | _ => None
  end.

(** [log.trace(message)], ..., [log.error(message)]: the method of the given
    level (there is none for [silent]). *)
Definition logAt (level : LogLevel) (message : option string)
    : list (Stream * string) :=
  if enabled process_env level
  then write (streamOf level) message (styleOf level)
  else [].

End Log.

End Log.

(** * Part II: theorems *)

(** ** The child's PATH *)
Section ChildPathFacts.
Import Spawn.
Variable process_env : gmap string string.
Variable execDir : string.
Variable npmRunPath : option string → string.
Variable delimiter : string.

Lemma filterBoolean_Some (l : list string) :
  filterBoolean (Some <$> l) = List.filter (λ s, negb (String.eqb s "")) l.
Proof.
  induction l as [|s l IH]; [done|].
  cbn. unfold filterBoolean in IH. rewrite IH.
  destruct (String.eqb s ""); done.
Qed.

Lemma filterBoolean_app (l k : list (option string)) :
  filterBoolean (l ++ k) = filterBoolean l ++ filterBoolean k.
Proof. unfold filterBoolean. apply omap_app. Qed.

Lemma filterBoolean_option (v : option string) :
  filterBoolean [v]
  = List.filter (λ s, negb (String.eqb s "")) (option_list v).
Proof.
  destruct v as [s|]; [|done]. cbn. destruct (String.eqb s ""); done.
Qed.

(** The inherited PATH is the one of [env] whenever [env] has one, the empty
    string included; [process.env.PATH] is the fallback. *)
Lemma inheritedPATH_cases (o : SpawnOptions) :
  inheritedPATH process_env o
  = match env o with
    | Some e =>
        match e !! "PATH" with
        | Some p => Some p
        | None => process_env !! "PATH"
        end
    | None => process_env !! "PATH"
    end.
Proof.
  unfold inheritedPATH. destruct (env o) as [e|]; cbn; [|done].
  destruct (e !! "PATH"); done.
Qed.

(** C1, as amended: the PATH of the child's environment is made of the
    directory of the runtime executable, the local-bin path of the working
    directory, the inherited or overridden PATH, and then the caller's path
    entries, in this order, joined by the delimiter, the empty ones left
    out. *)
Theorem childEnv_PATH (o : SpawnOptions) :
  childEnv process_env execDir npmRunPath delimiter o !! "PATH"
  = Some (join delimiter
            (List.filter (λ s, negb (String.eqb s ""))
               ([execDir; npmRunPath (cwd o)]
                  ++ option_list (inheritedPATH process_env o)
                  ++ default [] (paths o)))).
Proof.
  unfold childEnv. rewrite lookup_insert_eq. f_equal.
  unfold childPATH, pathEntries. f_equal.
  change [Some execDir; Some (npmRunPath (cwd o)); inheritedPATH process_env o]
    with ((Some <$> [execDir; npmRunPath (cwd o)])
            ++ [inheritedPATH process_env o]).
  rewrite <- app_assoc, !filterBoolean_app, filterBoolean_Some,
    filterBoolean_option, filterBoolean_Some.
  by rewrite !List.filter_app.
Qed.

(** The other variables of the child come from [env], then from
    [process.env]. *)
Lemma childEnv_other (o : SpawnOptions) (key : string) :
  key ≠ "PATH" →
  childEnv process_env execDir npmRunPath delimiter o !! key
  = match default ∅ (env o) !! key with
    | Some v => Some v
    | None => process_env !! key
    end.
Proof.
  intros Hkey. unfold childEnv.
  rewrite lookup_insert_ne by done. rewrite lookup_union.
  destruct (default ∅ (env o) !! key), (process_env !! key); done.
Qed.

End ChildPathFacts.

(** C1, as stated, fails: with a caller's entry [/extra] and an inherited
    PATH [/bin], the child's PATH puts [/bin] before [/extra], where the
    specification's order puts [/extra] first. *)
Lemma childPATH_not_specPATH :
  let o :=
    {| Spawn.cwd := Some "/w"; Spawn.env := None;
       Spawn.paths := Some ["/extra"]; Spawn.input := None;
       Spawn.output := None; Spawn.logCommand := None;
       Spawn.allowNonZeroExitCode := None |} in
  let process_env : gmap string string := {[ "PATH" := "/bin" ]} in
  let npmRunPath := λ _ : option string, "/w/node_modules/.bin" in
  Spawn.childEnv process_env "/usr/local/bin" npmRunPath ":" o !! "PATH"
    = Some "/usr/local/bin:/w/node_modules/.bin:/bin:/extra"
  ∧ Spawn.specPATH process_env "/usr/local/bin" npmRunPath ":" o
    = "/usr/local/bin:/w/node_modules/.bin:/extra:/bin"
  ∧ Spawn.childEnv process_env "/usr/local/bin" npmRunPath ":" o !! "PATH"
    ≠ Some (Spawn.specPATH process_env "/usr/local/bin" npmRunPath ":" o).
Proof.
  cbv zeta. split_and!.
  - by vm_compute.
  - by vm_compute.
  - vm_compute. discriminate.
Qed.

(** ** The close handler *)
Section CloseFacts.
Import Spawn.
Variables (cmd : string) (args : list string) (o : SpawnOptions).
Variable data : list Chunk.

(** The handler's two ways out, by the exit code once [null] has become 1
    and by [allowNonZeroExitCode]. *)
Lemma onClose_settlement (exitCode : option Z) (signalCode : option string) :
  (onClose cmd args o data exitCode signalCode).2
  = if bool_decide (default 1%Z exitCode = 0%Z)
       || default false (allowNonZeroExitCode o)
    then Resolve {| Spawn.data := data;
                    Spawn.exitCode := Some (default 1%Z exitCode);
                    Spawn.signalCode := signalCode;
                    Spawn.ok := bool_decide (default 1%Z exitCode = 0%Z) |}
    else Reject (ExitCodeError
                   {| error_cmd := cmd;
                      error_exitCode := Some (default 1%Z exitCode);
                      error_signalCode := signalCode |}).
Proof.
  unfold onClose.
  assert (nullishAssign exitCode 1%Z = Some (default 1%Z exitCode)) as ->
    by (by destruct exitCode).
  destruct (decide (default 1%Z exitCode = 0%Z)) as [Hz|Hz].
  - rewrite Hz. rewrite !bool_decide_eq_true_2 by done. done.
  - rewrite (bool_decide_eq_false_2 (Some _ = Some _)) by congruence.
    rewrite (bool_decide_eq_false_2 (default 1%Z exitCode = 0%Z)) by done.
    cbn. destruct (default false (allowNonZeroExitCode o)); done.
Qed.

(** C5: a Result has [ok] true exactly when its exit code is 0; a non-zero
    exit rejects with an exit-code error that carries the command, the exit
    code and the signal, unless [allowNonZeroExitCode] is set, and then a
    Result is returned. *)
Theorem onClose_exit_code (exitCode : option Z) (signalCode : option string) :
  (∀ r, (onClose cmd args o data exitCode signalCode).2 = Resolve r →
        (ok r = true ↔ Spawn.exitCode r = Some 0%Z))
  ∧ (default 1%Z exitCode ≠ 0%Z →
     default false (allowNonZeroExitCode o) = false →
     (onClose cmd args o data exitCode signalCode).2
     = Reject (ExitCodeError
                 {| error_cmd := cmd;
                    error_exitCode := Some (default 1%Z exitCode);
                    error_signalCode := signalCode |}))
  ∧ (default 1%Z exitCode ≠ 0%Z →
     allowNonZeroExitCode o = Some true →
     ∃ r, (onClose cmd args o data exitCode signalCode).2 = Resolve r
          ∧ Spawn.exitCode r = Some (default 1%Z exitCode)
          ∧ Spawn.signalCode r = signalCode
          ∧ ok r = false)
  ∧ (exitCode = Some 0%Z →
     ∃ r, (onClose cmd args o data exitCode signalCode).2 = Resolve r
          ∧ ok r = true).
Proof.
  rewrite onClose_settlement. split_and!.
  - intros r Hr.
    destruct (bool_decide _ || _); [|discriminate].
    injection Hr as <-. cbn. rewrite bool_decide_eq_true.
    split; [by intros ->|congruence].
  - intros Hcode Hallow. rewrite Hallow.
    by rewrite bool_decide_eq_false_2.
  - intros Hcode Hallow. rewrite Hallow. cbn. rewrite orb_true_r.
    eexists. split; [done|]. cbn.
    by rewrite bool_decide_eq_false_2.
  - intros ->. cbn. eexists. split; done.
Qed.

(** C10: a close with a [null] exit code counts as exit code 1.  Whatever the
    close event carries, the Result's exit code is a number; after a [null]
    exit code it is 1 and [ok] is false; and without [allowNonZeroExitCode]
    such a close rejects with an exit-code error. *)
Theorem onClose_null_exit_code (signalCode : option string) :
  (∀ exitCode r,
     (onClose cmd args o data exitCode signalCode).2 = Resolve r →
     ∃ n : Z, Spawn.exitCode r = Some n)
  ∧ (∀ r, (onClose cmd args o data None signalCode).2 = Resolve r →
          Spawn.exitCode r = Some 1%Z ∧ ok r = false)
  ∧ (allowNonZeroExitCode o = Some true →
     ∃ r, (onClose cmd args o data None signalCode).2 = Resolve r)
  ∧ (default false (allowNonZeroExitCode o) = false →
     (onClose cmd args o data None signalCode).2
     = Reject (ExitCodeError
                 {| error_cmd := cmd; error_exitCode := Some 1%Z;
                    error_signalCode := signalCode |})).
Proof.
  split_and!.
  - intros exitCode r. rewrite onClose_settlement.
    destruct (bool_decide _ || _); [|discriminate].
    intros [= <-]. by eexists.
  - intros r. rewrite onClose_settlement. cbn.
    destruct (default false (allowNonZeroExitCode o)); [|discriminate].
    by intros [= <-].
  - intros Hallow. rewrite onClose_settlement, Hallow. cbn. by eexists.
  - intros Hallow. by rewrite onClose_settlement, Hallow.
Qed.

End CloseFacts.

(** A child killed by SIGTERM, non-zero exits not allowed: the promise
    rejects with exit code 1 and the signal. *)
Lemma onClose_exit_code_witness :
  (Spawn.onClose "pnpm" ["info"] Spawn.noOptions [] None (Some "SIGTERM")).2
  = Spawn.Reject
      (Spawn.ExitCodeError
         {| Spawn.error_cmd := "pnpm"; Spawn.error_exitCode := Some 1%Z;
            Spawn.error_signalCode := Some "SIGTERM" |}).
Proof.
  apply (proj1 (proj2 (onClose_exit_code "pnpm" ["info"] Spawn.noOptions []
                         None (Some "SIGTERM")))).
  - cbn. lia.
  - reflexivity.
Defined.

(** The same close with [allowNonZeroExitCode]: a Result with exit code 1 and
    [ok] false. *)
Lemma onClose_null_exit_code_witness :
  ∃ r,
    (Spawn.onClose "pnpm" ["info"]
       {| Spawn.cwd := None; Spawn.env := None; Spawn.paths := None;
          Spawn.input := None; Spawn.output := None;
          Spawn.logCommand := None;
          Spawn.allowNonZeroExitCode := Some true |}
       [] None (Some "SIGTERM")).2 = Spawn.Resolve r.
Proof.
  apply (proj1 (proj2 (proj2 (onClose_null_exit_code "pnpm" ["info"] _ []
                                (Some "SIGTERM"))))).
  reflexivity.
Defined.

(** ** The registry of promises *)
Section RegistryFacts.
Import Spawn.

Lemma statusOf_lt s p st : statusOf s p = Some st → p < length (created s).
Proof.
  unfold statusOf. destruct (created s !! p) eqn:E; [|done].
  intros _. by eapply lookup_lt_Some.
Qed.

Lemma statusOf_lt_is_Some s p :
  p < length (created s) → is_Some (statusOf s p).
Proof.
  intros [o Ho]%lookup_lt_is_Some. unfold statusOf. rewrite Ho. by eexists.
Qed.

Lemma unsettled_lt s p : unsettled s p = true → p < length (created s).
Proof.
  unfold unsettled. destruct (statusOf s p) eqn:E; [|done].
  intros _. by eapply statusOf_lt.
Qed.

Lemma isExclusive_lt s p : isExclusive s p = true → p < length (created s).
Proof.
  unfold isExclusive. destruct (created s !! p) eqn:E; [|done].
  intros _. by eapply lookup_lt_Some.
Qed.

Lemma hasStarted_lt s p : hasStarted s p = true → p < length (created s).
Proof.
  unfold hasStarted. destruct (statusOf s p) eqn:E; [|done].
  intros _. by eapply statusOf_lt.
Qed.

(** *** [setStatus] *)

Lemma statusOf_setStatus s p st q :
  statusOf (setStatus p st s) q
  = if decide (p = q) then (λ _, st) <$> statusOf s q else statusOf s q.
Proof.
  unfold statusOf, setStatus. cbn. rewrite list_lookup_alter.
  case_decide; [subst|done]. by destruct (created s !! q).
Qed.

Lemma waitsOf_setStatus s p st q : waitsOf (setStatus p st s) q = waitsOf s q.
Proof.
  unfold waitsOf, setStatus. cbn. rewrite list_lookup_alter.
  case_decide; [subst|done]. by destruct (created s !! q).
Qed.

Lemma isExclusive_setStatus s p st q :
  isExclusive (setStatus p st s) q = isExclusive s q.
Proof.
  unfold isExclusive, setStatus. cbn. rewrite list_lookup_alter.
  case_decide; [subst|done]. by destruct (created s !! q).
Qed.

Lemma length_setStatus s p st :
  length (created (setStatus p st s)) = length (created s).
Proof. unfold setStatus. cbn. by rewrite length_alter. Qed.

(** *** [spawn] *)


Lemma spawn_fst o s : (spawn o s).1 = length (created s).
Proof. unfold spawn. by destruct (inheritsStream o) eqn:Ho. Qed.

Lemma spawn_created o s :
  created (spawn o s).2 = created s ++ [newOp o s].
Proof. unfold spawn, newOp. by destruct (inheritsStream o) eqn:Ho. Qed.

Lemma spawn_all o s : all (spawn o s).2 = all s ∪ {[ length (created s) ]}.
Proof. unfold spawn. by destruct (inheritsStream o) eqn:Ho. Qed.

Lemma spawn_blocking o s :
  blocking (spawn o s).2
  = if inheritsStream o then Some (length (created s)) else blocking s.
Proof. unfold spawn. by destruct (inheritsStream o) eqn:Ho. Qed.


Lemma lookup_snoc_decide {A} (l : list A) (x : A) (q : nat) :
  (l ++ [x]) !! q = if decide (q = length l) then Some x else l !! q.
Proof.
  case_decide as Hq.
  - subst. rewrite lookup_app_r by lia. by rewrite Nat.sub_diag.
  - destruct (decide (q < length l)).
    + by rewrite lookup_app_l.
    + rewrite lookup_app_r by lia.
      rewrite (lookup_ge_None_2 l) by lia.
      destruct (q - length l) as [|k] eqn:E; [lia|done].
Qed.

Lemma statusOf_spawn o s q :
  statusOf (spawn o s).2 q
  = if decide (q = length (created s)) then Some Waiting else statusOf s q.
Proof.
  unfold statusOf. rewrite spawn_created, lookup_snoc_decide.
  case_decide; [|done]. unfold newOp. by destruct (inheritsStream o) eqn:Ho.
Qed.

Lemma waitsOf_spawn o s q :
  waitsOf (spawn o s).2 q
  = if decide (q = length (created s))
    then (if inheritsStream o then all s else blockingSet s)
    else waitsOf s q.
Proof.
  unfold waitsOf. rewrite spawn_created, lookup_snoc_decide.
  case_decide; [|done]. unfold newOp. by destruct (inheritsStream o) eqn:Ho.
Qed.

Lemma isExclusive_spawn o s q :
  isExclusive (spawn o s).2 q
  = if decide (q = length (created s)) then inheritsStream o
    else isExclusive s q.
Proof.
  unfold isExclusive. rewrite spawn_created, lookup_snoc_decide.
  case_decide; [|done]. unfold newOp. by destruct (inheritsStream o) eqn:Ho.
Qed.

Lemma length_spawn o s :
  length (created (spawn o s).2) = S (length (created s)).
Proof. rewrite spawn_created, length_app. cbn. lia. Qed.

Lemma waitsOf_ge s q : length (created s) ≤ q → waitsOf s q = ∅.
Proof. intros Hq. unfold waitsOf. by rewrite lookup_ge_None_2. Qed.

Lemma statusOf_ge s q : length (created s) ≤ q → statusOf s q = None.
Proof. intros Hq. unfold statusOf. by rewrite lookup_ge_None_2. Qed.


(** A call of [spawn] keeps the invariant. *)
Lemma invariant_spawn o s : invariant s → invariant (spawn o s).2.
Proof.
  intros [Hall Hstarted Hblocking Hlater Hearlier Hlt Hbe Hold].
  set (n := length (created s)).
  split.
  - intros p. observers. rewrite statusOf_spawn, spawn_all. fold n.
    case_decide; [set_solver|]. intros Hp. apply Hall in Hp. set_solver.
  - intros p w. observers. rewrite !statusOf_spawn, waitsOf_spawn. fold n.
    case_decide; [done|]. intros Hp Hw.
    pose proof (Hstarted p w Hp Hw) as Hs.
    case_decide; [|done]. subst w.
    by rewrite statusOf_ge in Hs by (unfold n; lia).
  - intros p. observers.
    rewrite isExclusive_spawn, statusOf_spawn, spawn_blocking. fold n.
    case_decide as Hp.
    + intros -> _. exists n. split; [done|by left].
    + intros He Hu. destruct (inheritsStream o) eqn:Ho.
      * exists n. split; [done|]. right.
        rewrite waitsOf_spawn, ?Ho. fold n. rewrite decide_True by done.
        by apply Hall.
      * destruct (Hblocking p He Hu) as (b & Hb & Hor). exists b.
        split; [done|]. destruct Hor as [->|Hw]; [by left|right].
        rewrite waitsOf_spawn, ?Ho. fold n. case_decide; [|done].
        subst b. by rewrite waitsOf_ge in Hw.
  - intros p q. observers.
    rewrite isExclusive_spawn, statusOf_spawn, length_spawn. fold n.
    case_decide as Hp; [lia|]. intros He Hu Hq.
    rewrite !waitsOf_spawn, ?Ho. fold n. case_decide as Hqn.
    + destruct (inheritsStream o) eqn:Ho.
      * left. by apply Hall.
      * destruct (Hblocking p He Hu) as (b & Hb & Hor).
        unfold blockingSet. rewrite Hb.
        destruct Hor as [->|Hw]; [left; set_solver|right].
        exists b. split; [set_solver|].
        rewrite waitsOf_spawn, ?Ho. fold n. case_decide; [|done].
        subst b. by rewrite waitsOf_ge in Hw.
    + destruct (Hlater p q He Hu) as [Hw|(b & Hb & Hw)]; [lia|by left|].
      right. exists b. split; [done|].
      rewrite waitsOf_spawn, ?Ho. fold n. case_decide; [|done].
      subst b. by rewrite waitsOf_ge in Hw.
  - intros p q. observers.
    rewrite isExclusive_spawn, statusOf_spawn, waitsOf_spawn. fold n.
    case_decide as Hp.
    + intros He Hq. case_decide as Hqn; [lia|]. intros Hu.
      rewrite He. by apply Hall.
    + intros He Hq. case_decide as Hqn.
      * apply isExclusive_lt in He. lia.
      * by apply Hearlier.
  - intros p. rewrite spawn_all, length_spawn. fold n.
    intros [Hp%Hlt| ->%elem_of_singleton]%elem_of_union; lia.
  - intros b. rewrite spawn_blocking, isExclusive_spawn. fold n.
    destruct (inheritsStream o) eqn:Ho.
    + intros [= <-]. by rewrite decide_True.
    + intros Hb. pose proof (Hbe b Hb) as He.
      apply isExclusive_lt in He as Hlen. by rewrite decide_False by lia.
  - intros p w. rewrite waitsOf_spawn. fold n. case_decide as Hp.
    + subst p. destruct (inheritsStream o); [by apply Hlt|].
      unfold blockingSet. destruct (blocking s) as [b|] eqn:Hb; [|set_solver].
      intros ->%elem_of_singleton. by apply isExclusive_lt, Hbe.
    + apply Hold.
Qed.


(** A change of status keeps the invariant, when nothing settled comes
    back, and what has started waits for settled promises only. *)
Lemma invariant_setStatus s p st :
  invariant s →
  (∀ q, unsettled (setStatus p st s) q = true → unsettled s q = true) →
  (∀ q, isSettled s q = true → isSettled (setStatus p st s) q = true) →
  (∀ q w, hasStarted (setStatus p st s) q = true → w ∈ waitsOf s q →
          isSettled s w = true) →
  invariant (setStatus p st s).
Proof.
  intros [Hall Hstarted Hblocking Hlater Hearlier Hlt Hbe Hold] Hun Hset Hst.
  split.
  - intros q Hq. by apply Hall, Hun.
  - intros q w Hq. rewrite waitsOf_setStatus. intros Hw. by eapply Hset, Hst.
  - intros q. rewrite isExclusive_setStatus. intros He Hu%Hun.
    destruct (Hblocking q He Hu) as (b & Hb & Hor). exists b.
    by rewrite waitsOf_setStatus.
  - intros q r. rewrite isExclusive_setStatus, length_setStatus.
    intros He Hu%Hun Hr. rewrite waitsOf_setStatus.
    destruct (Hlater q r He Hu Hr) as [Hw|(b & Hb & Hw)]; [by left|right].
    exists b. by rewrite waitsOf_setStatus.
  - intros q r. rewrite isExclusive_setStatus, waitsOf_setStatus.
    intros He Hr Hu%Hun. by apply Hearlier.
  - intros q. rewrite length_setStatus. apply Hlt.
  - intros b. rewrite isExclusive_setStatus. apply Hbe.
  - intros q w. rewrite waitsOf_setStatus. apply Hold.
Qed.

Lemma invariant_start s p :
  invariant s →
  statusOf s p = Some Waiting →
  set_Forall (λ w, isSettled s w = true) (waitsOf s p) →
  invariant (setStatus p Running s).
Proof.
  intros Hinv Hp Hguard. apply invariant_setStatus; [done|..].
  - intros q. observers. rewrite statusOf_setStatus.
    case_decide; [subst; by rewrite Hp|done].
  - intros q. observers. rewrite statusOf_setStatus.
    case_decide; [subst; by rewrite Hp|done].
  - intros q w. observers. rewrite statusOf_setStatus.
    case_decide as Hq.
    + subst q. intros _ Hw. by apply Hguard.
    + intros Hq' Hw. by eapply (inv_started s Hinv).
Qed.

Lemma invariant_settle s p :
  invariant s →
  statusOf s p = Some Running →
  invariant (setStatus p Settled s).
Proof.
  intros Hinv Hp. apply invariant_setStatus; [done|..].
  - intros q. observers. rewrite statusOf_setStatus.
    case_decide; [subst; by rewrite Hp|done].
  - intros q. observers. rewrite statusOf_setStatus.
    case_decide; [subst; by rewrite Hp|done].
  - intros q w. observers. rewrite statusOf_setStatus.
    case_decide as Hq.
    + subst q. intros _ Hw. eapply (inv_started s Hinv); [|done].
      observers. by rewrite Hp.
    + intros Hq' Hw. by eapply (inv_started s Hinv).
Qed.

Lemma invariant_finally_blocking s p :
  invariant s →
  isSettled s p = true →
  invariant {| all := all s;
               blocking := if bool_decide (blocking s = Some p) then None
                           else blocking s;
               created := created s |}.
Proof.
  intros Hinv Hp. destruct Hinv as [Hall Hstarted Hblocking Hlater Hearlier Hlt Hbe Hold].
  split; try done.
  - intros q He Hu. cbn.
    destruct (Hblocking q He Hu) as (b & Hb & Hor). exists b.
    split; [|done]. case_bool_decide as Hbp; [|done].
    assert (b = p) as -> by congruence.
    assert (isSettled s q = true) as Hq.
    { destruct Hor as [->|Hw]; [done|].
      apply (Hstarted p q); [|done].
      revert Hp. observers. by destruct (statusOf s p) as [[]|]. }
    revert Hq. change (unsettled _ q) with (unsettled s q) in Hu.
    revert Hu. observers. by destruct (statusOf s q) as [[]|].
  - intros b. cbn. case_bool_decide; [done|]. apply Hbe.
Qed.

Lemma invariant_finally_all s p :
  invariant s →
  isSettled s p = true →
  invariant {| all := all s ∖ {[ p ]}; blocking := blocking s;
               created := created s |}.
Proof.
  intros Hinv Hp. destruct Hinv as [Hall Hstarted Hblocking Hlater Hearlier Hlt Hbe Hold].
  split; try done.
  - intros q Hu. cbn. change (unsettled _ q) with (unsettled s q) in Hu.
    apply elem_of_difference. split; [by apply Hall|].
    intros ->%elem_of_singleton. revert Hu Hp. observers.
    by destruct (statusOf s p) as [[]|].
  - intros q. cbn. intros [Hq _]%elem_of_difference. by apply Hlt.
Qed.

Lemma invariant_initial : invariant initial.
Proof. split; try done. Qed.

(** Every step of the event loop keeps the invariant. *)
Lemma invariant_step s e s' : invariant s → step s e = Some s' → invariant s'.
Proof.
  intros Hinv. destruct e as [o|p|p|p|p]; cbn.
  - intros [= <-]. by apply invariant_spawn.
  - destruct (created s !! p) as [op|] eqn:Hop; [|done].
    destruct (status op) eqn:Hst; try done.
    case_bool_decide as Hguard; [|done]. intros [= <-].
    apply invariant_start; [done|..].
    + unfold statusOf. by rewrite Hop; cbn; rewrite Hst.
    + unfold waitsOf. by rewrite Hop.
  - destruct (isRunning s p) eqn:Hrun; [|done]. intros [= <-].
    apply invariant_settle; [done|].
    revert Hrun. unfold isRunning. by destruct (statusOf s p) as [[]|].
  - destruct (created s !! p) as [op|] eqn:Hop; [|done].
    destruct (exclusive op && isSettled s p) eqn:Hc; [|done].
    intros [= <-]. apply andb_true_iff in Hc as [_ Hc].
    by apply invariant_finally_blocking.
  - destruct (isSettled s p) eqn:Hc; [|done]. intros [= <-].
    by apply invariant_finally_all.
Qed.

Lemma invariant_run es : ∀ s s', invariant s → run s es = Some s' → invariant s'.
Proof.
  induction es as [|e es IH]; intros s s' Hinv; cbn.
  - by intros [= <-].
  - destruct (step s e) as [s1|] eqn:Hstep; [|done]. cbn.
    apply IH. by eapply invariant_step.
Qed.

Lemma reachable_invariant s : reachable s → invariant s.
Proof. intros [es Hes]. eapply invariant_run; [apply invariant_initial|done]. Qed.

Lemma run_app s es1 es2 :
  run s (es1 ++ es2) = s1 ← run s es1; run s1 es2.
Proof.
  revert s. induction es1 as [|e es1 IH]; intros s; [done|].
  cbn. destruct (step s e); [|done]. cbn. apply IH.
Qed.

Lemma reachable_run s es s' : reachable s → run s es = Some s' → reachable s'.
Proof.
  intros [es0 Hes0] Hrun. exists (es0 ++ es).
  by rewrite run_app, Hes0.
Qed.


(** *** What a step leaves alone *)

(** A step keeps the promises made so far, what each waits for and whether
    it is exclusive; a settled promise stays settled, and one that has
    started stays started. *)
Lemma step_frame s e s' q :
  step s e = Some s' →
  q < length (created s) →
  q < length (created s')
  ∧ waitsOf s' q = waitsOf s q
  ∧ isExclusive s' q = isExclusive s q
  ∧ (isSettled s q = true → isSettled s' q = true)
  ∧ (hasStarted s q = true → hasStarted s' q = true).
Proof.
  intros Hstep Hq. destruct e as [o|p|p|p|p]; cbn in Hstep.
  - injection Hstep as <-.
    rewrite length_spawn, waitsOf_spawn, isExclusive_spawn.
    observers. rewrite statusOf_spawn.
    rewrite !decide_False by lia. split_and!; [lia|done..].
  - destruct (created s !! p) as [op|] eqn:Hop; [|done].
    destruct (status op) eqn:Hst; try done.
    case_bool_decide; [|done]. injection Hstep as <-.
    rewrite length_setStatus, waitsOf_setStatus, isExclusive_setStatus.
    observers. rewrite statusOf_setStatus.
    split_and!; try done; case_decide; try done; subst;
      unfold statusOf; rewrite Hop; cbn; by rewrite Hst.
  - destruct (isRunning s p) eqn:Hrun; [|done]. injection Hstep as <-.
    rewrite length_setStatus, waitsOf_setStatus, isExclusive_setStatus.
    observers. rewrite statusOf_setStatus. unfold isRunning in Hrun.
    split_and!; try done; case_decide; try done; subst;
      by destruct (statusOf s q) as [[]|].
  - destruct (created s !! p) as [op|] eqn:Hop; [|done].
    destruct (exclusive op && isSettled s p); [|done].
    by injection Hstep as <-.
  - destruct (isSettled s p); [|done]. by injection Hstep as <-.
Qed.

Lemma run_frame es : ∀ s s' q,
  run s es = Some s' →
  q < length (created s) →
  q < length (created s')
  ∧ waitsOf s' q = waitsOf s q
  ∧ isExclusive s' q = isExclusive s q
  ∧ (isSettled s q = true → isSettled s' q = true)
  ∧ (hasStarted s q = true → hasStarted s' q = true).
Proof.
  induction es as [|e es IH]; intros s s' q; cbn.
  - by intros [= <-].
  - destruct (step s e) as [s1|] eqn:Hstep; [|done]. cbn.
    intros Hrun Hq.
    destruct (step_frame _ _ _ q Hstep Hq) as (Hq1 & Hw1 & He1 & Hs1 & Hh1).
    destruct (IH _ _ q Hrun Hq1) as (Hq2 & Hw2 & He2 & Hs2 & Hh2).
    split_and!; [done|congruence|congruence|auto|auto].
Qed.

(** A waiting promise whose awaited promises have all settled can start. *)
Lemma start_enabled s p :
  statusOf s p = Some Waiting →
  (∀ w, w ∈ waitsOf s p → isSettled s w = true) →
  step s (Start p) = Some (setStatus p Running s).
Proof.
  unfold statusOf, waitsOf. cbn.
  destruct (created s !! p) as [op|]; [|done]. cbn.
  intros [= ->] Hw. by rewrite bool_decide_eq_true_2.
Qed.


(** C4, as amended.  Let [spawn] be called with options [o] in a reachable
    registry [s], and let the event loop run on to [s'].

    With exclusive streams: the new promise is recorded as blocking by the
    call; its child has not started unless every promise in the registry at
    the call has settled, and it can start once they have; and as long as it
    has not settled, the recorded blocking promise is itself or a later
    exclusive promise that waits for it.

    Without: [blocking] is left as it was; the child has not started unless
    the promise recorded as blocking at the call, if any, has settled, and it
    can start as soon as that one has, whatever else is in flight. *)
Theorem spawn_serialization (s : Loop) (o : SpawnOptions) (es : list Event)
    (s' : Loop) :
  reachable s →
  run (spawn o s).2 es = Some s' →
  (inheritsStream o = true →
     blocking (spawn o s).2 = Some (spawn o s).1
     ∧ (hasStarted s' (spawn o s).1 = true →
        ∀ q, q ∈ all s → isSettled s' q = true)
     ∧ (statusOf s' (spawn o s).1 = Some Waiting →
        (∀ q, q ∈ all s → isSettled s' q = true) →
        is_Some (step s' (Start (spawn o s).1)))
     ∧ (unsettled s' (spawn o s).1 = true →
        ∃ b, blocking s' = Some b
             ∧ (b = (spawn o s).1
                ∨ ((spawn o s).1 < b ∧ isExclusive s' b = true
                   ∧ (spawn o s).1 ∈ waitsOf s' b))))
  ∧ (inheritsStream o = false →
     blocking (spawn o s).2 = blocking s
     ∧ (hasStarted s' (spawn o s).1 = true →
        ∀ b, blocking s = Some b → isSettled s' b = true)
     ∧ (statusOf s' (spawn o s).1 = Some Waiting →
        (∀ b, blocking s = Some b → isSettled s' b = true) →
        is_Some (step s' (Start (spawn o s).1)))).
Proof.
  intros Hs Hrun. rewrite spawn_fst. set (p := length (created s)).
  assert (reachable (spawn o s).2) as Hs1
    by (by apply (reachable_run s [Request o])).
  pose proof (reachable_invariant _ (reachable_run _ _ _ Hs1 Hrun)) as Hinv.
  assert (p < length (created (spawn o s).2)) as Hp
    by (rewrite length_spawn; unfold p; lia).
  destruct (run_frame _ _ _ p Hrun Hp) as (_ & Hw & He & _ & _).
  rewrite waitsOf_spawn, decide_True in Hw by done.
  rewrite isExclusive_spawn, decide_True in He by done.
  rewrite spawn_blocking. split; intros Ho; rewrite Ho in *.
  - split_and!; [done|..].
    + intros Hst q Hq. apply (inv_started _ Hinv p q Hst). by rewrite Hw.
    + intros Hst Hall. rewrite start_enabled; [done..|].
      intros q. rewrite Hw. apply Hall.
    + intros Hu. destruct (inv_blocking _ Hinv p He Hu) as (b & Hb & Hor).
      exists b. split; [done|]. destruct Hor as [->|Hpb]; [by left|right].
      split_and!; [by eapply inv_older|by eapply inv_blocking_exclusive|done].
  - split_and!; [done|..].
    + intros Hst b Hb. apply (inv_started _ Hinv p b Hst).
      rewrite Hw. unfold blockingSet. rewrite Hb. set_solver.
    + intros Hst Hb. rewrite start_enabled; [done..|].
      intros q. rewrite Hw. unfold blockingSet.
      destruct (blocking s) as [b|]; [|set_solver].
      intros ->%elem_of_singleton. by apply Hb.
Qed.

(** X1: while an exclusive promise has not settled, no promise made after it
    has started, and once it has started every promise made before it has
    settled: its child runs alone. *)
Theorem exclusive_runs_alone (s : Loop) (p q : nat) :
  reachable s →
  isExclusive s p = true →
  q < length (created s) →
  (unsettled s p = true → p < q → hasStarted s q = false)
  ∧ (hasStarted s p = true → q < p → isSettled s q = true)
  ∧ (isRunning s p = true → q ≠ p → isRunning s q = false).
Proof.
  intros Hinv%reachable_invariant He Hq.
  assert (unsettled s p = true → p < q → hasStarted s q = false) as Hafter.
  { intros Hu Hpq. apply not_true_is_false. intros Hst.
    assert (isSettled s p = true) as Hp.
    { destruct (inv_later _ Hinv p q He Hu) as [Hw|(b & Hb & Hw)]; [lia|..].
      - by apply (inv_started _ Hinv q p).
      - apply (inv_started _ Hinv b p); [|done].
        pose proof (inv_started _ Hinv q b Hst Hb) as Hbs.
        revert Hbs. observers. by destruct (statusOf s b) as [[]|]. }
    revert Hu Hp. observers. by destruct (statusOf s p) as [[]|]. }
  assert (hasStarted s p = true → q < p → isSettled s q = true) as Hbefore.
  { intros Hst Hqp. destruct (unsettled s q) eqn:Hu.
    - apply (inv_started _ Hinv p q Hst). by apply (inv_earlier _ Hinv).
    - apply statusOf_lt_is_Some in Hq as [st Hq].
      revert Hu. observers. rewrite Hq. by destruct st. }
  split_and!; [done..|].
  intros Hrun Hne. destruct (decide (p < q)).
  - assert (hasStarted s q = false) as Hq'.
    { apply Hafter; [|done]. revert Hrun. unfold isRunning. observers.
      by destruct (statusOf s p) as [[]|]. }
    revert Hq'. unfold isRunning. observers.
    by destruct (statusOf s q) as [[]|].
  - assert (isSettled s q = true) as Hq'.
    { apply Hbefore; [|lia]. revert Hrun. unfold isRunning. observers.
      by destruct (statusOf s p) as [[]|]. }
    revert Hq'. unfold isRunning. observers.
    by destruct (statusOf s q) as [[]|].
Qed.

End RegistryFacts.


(** C4, as stated, fails: an exclusive promise 0 is running when a second
    exclusive [spawn] is called; from then on [blocking] is promise 1, while
    the child of promise 0 is still running. *)
Lemma blocking_replaced_while_running :
  ∃ s,
    Spawn.run Spawn.initial
      [Spawn.Request Spawn.inheritOutput; Spawn.Start 0;
       Spawn.Request Spawn.inheritOutput] = Some s
    ∧ Spawn.isExclusive s 0 = true
    ∧ Spawn.isRunning s 0 = true
    ∧ Spawn.blocking s = Some 1
    ∧ Spawn.blocking s ≠ Some 0.
Proof.
  eexists. split_and!; [by vm_compute..|]. vm_compute. discriminate.
Qed.


(** Two plain spawns Y and Z are running when X asks for exclusive streams:
    X is blocking at once, and has not started unless Y and Z have
    settled. *)
Lemma spawn_serialization_witness :
  let s := default Spawn.initial (Spawn.run Spawn.initial Spawn.twoRunning) in
  let s' :=
    default Spawn.initial
      (Spawn.run (Spawn.spawn Spawn.inheritOutput s).2
         [Spawn.Settle 0; Spawn.FinallyAll 0]) in
  Spawn.blocking (Spawn.spawn Spawn.inheritOutput s).2 = Some 2
  ∧ (Spawn.hasStarted s' 2 = true →
     ∀ q, q ∈ Spawn.all s → Spawn.isSettled s' q = true)
  ∧ Spawn.all s = {[ 0; 1 ]}
  ∧ Spawn.step s' (Spawn.Start 2) = None.
Proof.
  cbv zeta.
  assert (Spawn.reachable
            (default Spawn.initial (Spawn.run Spawn.initial Spawn.twoRunning)))
    as Hs by (exists Spawn.twoRunning; vm_compute; reflexivity).
  assert (Spawn.run
            (Spawn.spawn Spawn.inheritOutput
               (default Spawn.initial
                  (Spawn.run Spawn.initial Spawn.twoRunning))).2
            [Spawn.Settle 0; Spawn.FinallyAll 0]
          = Some (default Spawn.initial
                    (Spawn.run
                       (Spawn.spawn Spawn.inheritOutput
                          (default Spawn.initial
                             (Spawn.run Spawn.initial Spawn.twoRunning))).2
                       [Spawn.Settle 0; Spawn.FinallyAll 0])))
    as Hrun by (vm_compute; reflexivity).
  destruct (spawn_serialization _ _ _ _ Hs Hrun) as [H _].
  destruct (H eq_refl) as (H1 & H2 & _).
  split_and!; [exact H1|exact H2|by vm_compute|by vm_compute].
Defined.

(** After X has started, W is requested: W waits for X. *)
Lemma exclusive_runs_alone_witness :
  Spawn.hasStarted (Spawn.after Spawn.scenario) 3 = false.
Proof.
  assert (Spawn.reachable (Spawn.after Spawn.scenario)) as Hs
    by (exists Spawn.scenario; vm_compute; reflexivity).
  apply (proj1 (exclusive_runs_alone (Spawn.after Spawn.scenario) 2 3 Hs
                  eq_refl ltac:(vm_compute; lia))).
  - reflexivity.
  - lia.
Defined.

(** The specification's scenario, step by step: X cannot start while Z is
    running; it starts once Y and Z have settled; W cannot start while X is
    running, and starts after X has settled. *)
Example serialization_scenario :
  Spawn.run Spawn.initial
    (Spawn.twoRunning
       ++ [Spawn.Request Spawn.inheritOutput; Spawn.Settle 0;
           Spawn.Start 2]) = None
  ∧ Spawn.isRunning (Spawn.after Spawn.scenario) 2 = true
  ∧ Spawn.step (Spawn.after Spawn.scenario) (Spawn.Start 3) = None
  ∧ Spawn.isRunning
      (Spawn.after
         (Spawn.scenario
            ++ [Spawn.Settle 2; Spawn.FinallyBlocking 2; Spawn.FinallyAll 2;
                Spawn.Start 3])) 3 = true.
Proof. by vm_compute. Qed.

(** ** The range-sync pass *)
Section PatchFacts.
Import Sync.

Lemma patchLookup_patchEntry scope' depName' new p scope depName :
  patchLookup (patchEntry scope' depName' new p) scope depName
  = if decide (scope = scope' ∧ depName = depName') then Some new
    else patchLookup p scope depName.
Proof.
  unfold patchLookup, patchEntry. cbn.
  destruct (decide (scope = scope')) as [->|Hs].
  - rewrite lookup_insert_eq. cbn.
    destruct (decide (depName = depName')) as [->|Hd].
    + rewrite lookup_insert_eq. by rewrite decide_True.
    + rewrite lookup_insert_ne by done. rewrite decide_False by (by intros [??]).
      destruct p as [p|]; cbn; [|done]. by destruct (p !! scope').
  - rewrite lookup_insert_ne by done. rewrite decide_False by (by intros [??]).
    by destruct p.
Qed.

Variable satisfies : string → string → bool.
Variable minVersion : string → option string.
Variable dependencyUpdates : gmap string string.

Local Abbreviation updatedRange := (updatedRange satisfies minVersion dependencyUpdates).
Local Abbreviation visitEntry := (visitEntry satisfies minVersion dependencyUpdates).
Local Abbreviation visitScope := (visitScope satisfies minVersion dependencyUpdates).
Local Abbreviation getUpdatePatches :=
  (getUpdatePatches satisfies minVersion dependencyUpdates).

(** The patch after a run of the inner loop over entries with distinct
    names. *)
Lemma visitEntries_lookup strict scope (l : list (string * string)) :
  ∀ p sc n,
    NoDup l.*1 →
    patchLookup (foldl (visitEntry strict scope) p l) sc n
    = if decide (sc = scopeName scope) then
        match (list_to_map l : gmap string string) !! n
              ≫= updatedRange strict n with
        | Some r => Some r
        | None => patchLookup p sc n
        end
      else patchLookup p sc n.
Proof.
  induction l as [|[k v] l IH]; intros p sc n Hnd.
  - cbn. rewrite lookup_empty. cbn. by case_decide.
  - apply NoDup_cons in Hnd as [Hk Hnd]. cbn [foldl]. rewrite IH by done.
    assert (patchLookup (visitEntry strict scope p (k, v)) sc n
            = if decide (sc = scopeName scope ∧ n = k) then
                match updatedRange strict k v with
                | Some r => Some r
                | None => patchLookup p sc n
                end
              else patchLookup p sc n) as ->.
    { unfold Sync.visitEntry. cbn.
      destruct (updatedRange strict k v) as [r|].
      - apply patchLookup_patchEntry.
      - by case_decide. }
    case_decide as Hsc; [|by rewrite decide_False by (by intros [??])].
    cbn [list_to_map foldr]. cbn [uncurry fst snd].
    destruct (decide (n = k)) as [->|Hn].
    + rewrite lookup_insert_eq. rewrite decide_True by done.
      rewrite (not_elem_of_list_to_map_1 l k) by done. done.
    + rewrite lookup_insert_ne by done.
      by rewrite decide_False by (by intros [??]).
Qed.

Lemma visitScope_lookup strict workspace p scope sc n :
  patchLookup (visitScope strict workspace p scope) sc n
  = if decide (sc = scopeName scope) then
      match scopeOf workspace scope !! n ≫= updatedRange strict n with
      | Some r => Some r
      | None => patchLookup p sc n
      end
    else patchLookup p sc n.
Proof.
  unfold Sync.visitScope.
  rewrite visitEntries_lookup by apply NoDup_fst_map_to_list.
  by rewrite list_to_map_to_list.
Qed.

(** What the patch holds for a dependency: the new range the loop body
    computes for its entry, if any. *)
Lemma getUpdatePatches_lookup strict workspace scope depName :
  patchLookup (getUpdatePatches strict workspace) (scopeName scope) depName
  = scopeOf workspace scope !! depName ≫= updatedRange strict depName.
Proof.
  unfold Sync.getUpdatePatches, scopes. cbn [foldl].
  rewrite !visitScope_lookup.
  destruct scope; cbn [scopeName];
    repeat first [rewrite decide_True by done | rewrite decide_False by done];
    repeat match goal with
           | |- context [match ?x with Some _ => _ | None => _ end] =>
               destruct x
           end; done.
Qed.

End PatchFacts.

(** ** The pattern of the range's prefix *)
Section PatternFacts.
Import Sync.

Lemma append_cons c (s t : string) : String c s +:+ t = String c (s +:+ t).
Proof. reflexivity. Qed.

Lemma append_nil (t : string) : "" +:+ t = t.
Proof. reflexivity. Qed.

Lemma append_empty_r (s : string) : s +:+ "" = s.
Proof. induction s as [|c s IH]; [done|]. by rewrite append_cons, IH. Qed.


Lemma skipDigits_app d r :
  digitsOnly d → startsNoDigit r → skipDigits (d +:+ r) = r.
Proof.
  intros Hd Hr. induction d as [|c d IH]; rewrite ?append_cons, ?append_nil in *; cbn.
  - destruct r as [|c r]; [done|]. cbn in *. by rewrite Hr.
  - rewrite (Hd c) by (by left). apply IH. intros c' Hc. apply Hd. by right.
Qed.

Lemma digits_app d r :
  allDigits d → startsNoDigit r → digits (d +:+ r) = Some r.
Proof.
  intros [Hne Hd] Hr. destruct d as [|c d]; [done|]. rewrite ?append_cons, ?append_nil in *. cbn.
  rewrite (Hd c) by (by left). f_equal. apply skipDigits_app; [|done].
  intros c' Hc. apply Hd. by right.
Qed.

Lemma skipDigits_split s :
  ∃ d, s = d +:+ skipDigits s ∧ digitsOnly d ∧ startsNoDigit (skipDigits s).
Proof.
  induction s as [|c s (d & Hs & Hd & Hr)].
  - exists "". split_and!; [reflexivity|by intros c []|done].
  - cbn. destruct (isDigit c) eqn:Hc.
    + exists (String c d). split_and!; [by rewrite append_cons, <- Hs| |done].
      intros c' [<-|Hc']; [done|by apply Hd].
    + exists "". split_and!; [reflexivity|by intros c' []|done].
Qed.

Lemma digits_Some s r :
  digits s = Some r → ∃ d, allDigits d ∧ s = d +:+ r ∧ startsNoDigit r.
Proof.
  destruct s as [|c s]; [done|]. cbn. destruct (isDigit c) eqn:Hc; [|done].
  intros [= <-]. destruct (skipDigits_split s) as (d & Hs & Hd & Hr).
  exists (String c d). split_and!; [|by rewrite append_cons, <- Hs|done].
  split; [done|]. intros c' [<-|Hc']; [done|by apply Hd].
Qed.

Lemma prereleaseToEnd_spec t : prereleaseToEnd t = true ↔ prereleaseText t.
Proof.
  unfold prereleaseText. induction t as [|c t IH]; cbn.
  - split; [by intros _ c []|done].
  - rewrite andb_true_iff, IH. split.
    + intros [Hc Ht] c' [<-|Hc']; [done|by apply Ht].
    + intros H. split; [apply H; by left|]. intros c' Hc'. apply H. by right.
Qed.

(** The matcher accepts the bare and partial versions, and nothing else. *)
Lemma matchVersion_sound s : matchVersion s = true → partialVersion s.
Proof.
  unfold matchVersion.
  destruct (digits s) as [r1|] eqn:H1; [|done].
  apply digits_Some in H1 as (a & Ha & -> & _).
  destruct r1 as [|c1 r1]; [intros _; rewrite append_empty_r; by constructor|].
  destruct (decide (c1 = "."%char)) as [->|Hc1];
    [|by destruct c1 as [[] [] [] [] [] [] [] []]].
  destruct (digits r1) as [r2|] eqn:H2; [|done].
  apply digits_Some in H2 as (b & Hb & -> & _).
  destruct r2 as [|c2 r2];
    [intros _; rewrite append_empty_r; by apply (pv_minor a b)|].
  destruct (decide (c2 = "."%char)) as [->|Hc2];
    [|by destruct c2 as [[] [] [] [] [] [] [] []]].
  destruct (digits r2) as [r3|] eqn:H3; [|done].
  apply digits_Some in H3 as (c & Hc & -> & _).
  destruct r3 as [|c3 r3];
    [intros _; rewrite append_empty_r; by apply (pv_patch a b c)|].
  destruct (decide (c3 = "-"%char)) as [->|Hc3];
    [|by destruct c3 as [[] [] [] [] [] [] [] []]].
  intros Ht%prereleaseToEnd_spec. by apply (pv_prerelease a b c r3).
Qed.

Lemma matchVersion_complete s : partialVersion s → matchVersion s = true.
Proof.
  unfold matchVersion.
  intros [a Ha|a b Ha Hb|a b c Ha Hb Hc|a b c t Ha Hb Hc Ht].
  - rewrite <- (append_empty_r a). by rewrite digits_app by side.
  - rewrite digits_app by side. rewrite ?append_cons, ?append_nil in *. cbn.
    rewrite <- (append_empty_r b). by rewrite digits_app by side.
  - rewrite digits_app by side. rewrite ?append_cons, ?append_nil in *. cbn.
    rewrite digits_app by side. rewrite ?append_cons, ?append_nil in *. cbn.
    rewrite <- (append_empty_r c). by rewrite digits_app by side.
  - rewrite digits_app by side. rewrite ?append_cons, ?append_nil in *. cbn.
    rewrite digits_app by side. rewrite ?append_cons, ?append_nil in *. cbn.
    rewrite digits_app by side. rewrite ?append_cons, ?append_nil in *. cbn.
    by apply prereleaseToEnd_spec.
Qed.

Lemma partialVersion_startsDigit v : partialVersion v → startsDigit v.
Proof.
  assert (∀ a r, allDigits a → startsDigit (a +:+ r)) as H.
  { intros [|c a] r [Hne Ha]; [done|]. rewrite ?append_cons, ?append_nil in *. cbn. apply Ha. by left. }
  intros [a Ha|a b Ha Hb|a b c Ha Hb Hc|a b c t Ha Hb Hc Ht]; try by apply H.
  rewrite <- (append_empty_r a). by apply H.
Qed.

(** The capture of the group: an operator in front of a digit is taken
    whole, and nothing else is taken. *)
Lemma splitPrefix_operator op v :
  In op operators → startsDigit v → splitPrefix (op +:+ v) = (Some op, v).
Proof.
  intros Hop Hv. destruct v as [|c v]; [done|]. cbn in Hv.
  cbn in Hop. destruct Hop as [<-|[<-|[<-|[<-|[<-|[]]]]]]; try done.
  cbn. destruct c as [[] [] [] [] [] [] [] []]; done.
Qed.

Lemma splitPrefix_Some s op r :
  splitPrefix s = (Some op, r) → In op operators ∧ s = op +:+ r.
Proof.
  destruct s as [|c s]; [done|].
  destruct c as [[] [] [] [] [] [] [] []]; cbn; try done;
    try (intros [= <- <-]; cbn; by auto 10).
  destruct s as [|c s]; [intros [= <- <-]; cbn; by auto 10|].
  destruct c as [[] [] [] [] [] [] [] []]; cbn;
    intros [= <- <-]; cbn; by auto 10.
Qed.

Lemma splitPrefix_None s r :
  splitPrefix s = (None, r) →
  ∀ op v, In op operators → s ≠ op +:+ v.
Proof.
  intros Hs op v Hop ->.
  cbn in Hop. destruct Hop as [<-|[<-|[<-|[<-|[<-|[]]]]]]; try done.
  cbn in Hs. by destruct v as [|[[] [] [] [] [] [] [] []] v].
Qed.

(** The prefix the code takes is the prefix the specification derives. *)
Lemma prefixOf_spec depRange : specPrefix depRange (prefixOf depRange).
Proof.
  unfold prefixOf, rangeMatch.
  destruct (splitPrefix depRange) as [[op|] r] eqn:Hsplit.
  - pose proof (splitPrefix_Some _ _ _ Hsplit) as [Hop Heq].
    destruct (matchVersion r) eqn:Hr; cbn.
    + apply (sp_operator _ op r); [done| |done]. by apply matchVersion_sound.
    + apply sp_default. intros op' v Hop' Hv Heq'.
      pose proof (splitPrefix_operator op' v Hop'
                    (partialVersion_startsDigit _ Hv)) as Hsplit'.
      rewrite <- Heq', Hsplit in Hsplit'. injection Hsplit' as _ ->.
      apply matchVersion_complete in Hv. congruence.
  - assert (default "^" (mjoin (if matchVersion r then Some None else None))
            = "^") as -> by (by destruct (matchVersion r)).
    apply sp_default. intros op v Hop _. by eapply splitPrefix_None.
Qed.


End PatternFacts.

(** ** What the range-sync pass rewrites *)
Section SyncFacts.
Import Sync.
Variable satisfies : string → string → bool.
Variable minVersion : string → option string.
Variable dependencyUpdates : gmap string string.

Local Abbreviation updatedRange :=
  (updatedRange satisfies minVersion dependencyUpdates).
Local Abbreviation getUpdatePatches :=
  (getUpdatePatches satisfies minVersion dependencyUpdates).
Local Abbreviation rangeAfter :=
  (rangeAfter satisfies minVersion dependencyUpdates).
Local Abbreviation processed := (processed dependencyUpdates).

(** C6: an entry whose range is [*] or [x] or begins with [file:] gets no
    patch, whatever the new version of the dependency and in strict mode
    too: its range stays as it is. *)
Theorem wildcard_never_rewritten (strict : bool) (workspace : Workspace)
    (scope : Scope) (depName depRange : string) :
  scopeOf workspace scope !! depName = Some depRange →
  depRange = "*" ∨ depRange = "x" ∨ startsWith depRange "file:" = true →
  patchLookup (getUpdatePatches strict workspace) (scopeName scope) depName
  = None
  ∧ rangeAfter strict workspace scope depName depRange = depRange.
Proof.
  intros Hentry Hwild.
  assert (patchLookup (getUpdatePatches strict workspace) (scopeName scope)
            depName = None) as Hnone.
  { rewrite getUpdatePatches_lookup, Hentry. cbn. unfold Sync.updatedRange.
    destruct (dependencyUpdates !! depName) as [version|]; [|done].
    assert (notUpdatable depRange = true) as ->; [|done].
    unfold notUpdatable. destruct Hwild as [-> | [-> | Hfile]]; [done..|].
    rewrite Hfile. apply orb_true_r. }
  split; [done|]. unfold Sync.rangeAfter. by rewrite Hnone.
Qed.

(** C2: take an entry the pass processes (its dependency has an update, its
    range is none of [*], [x], [file:...]) whose new version satisfies the
    recorded range and the range made of [~] and the recorded range's
    minimum version.  With strict mode off no patch entry is produced and
    the range is left as it is.  With strict mode on the entry ends with the
    rewritten range, prefix and new version: through a patch entry, unless
    the recorded text is the rewritten range already. *)
Theorem churn_suppression (workspace : Workspace) (scope : Scope)
    (depName depRange version : string) :
  scopeOf workspace scope !! depName = Some depRange →
  dependencyUpdates !! depName = Some version →
  processed depName depRange →
  satisfies version depRange = true →
  satisfies version ("~" +:+ template (minVersion depRange)) = true →
  (patchLookup (getUpdatePatches false workspace) (scopeName scope) depName
   = None
   ∧ rangeAfter false workspace scope depName depRange = depRange)
  ∧ (rangeAfter true workspace scope depName depRange
     = prefixOf depRange +:+ version
     ∧ patchLookup (getUpdatePatches true workspace) (scopeName scope)
         depName
       = if decide (prefixOf depRange +:+ version = depRange) then None
         else Some (prefixOf depRange +:+ version)).
Proof.
  intros Hentry Hupdate [_ Hupd] Hsat Hmin.
  unfold Sync.rangeAfter. rewrite !getUpdatePatches_lookup, Hentry. cbn.
  unfold Sync.updatedRange. rewrite Hupdate, Hupd.
  unfold inconsequential, newDepRange. rewrite Hsat, Hmin. cbn.
  destruct (String.eqb_spec (prefixOf depRange +:+ version) depRange)
    as [Heq|Hne]; cbn.
  - by rewrite decide_True.
  - by rewrite decide_False.
Qed.



End SyncFacts.


(** The specification's example of churn suppression: range [^1.2.0], new
    version [1.2.5]. *)
Lemma churn_suppression_witness :
  Sync.patchLookup
    (Sync.getUpdatePatches Semver.satisfies Semver.minVersion
       {[ "dep" := "1.2.5" ]} false
       (Sync.dependenciesOnly {[ "dep" := "^1.2.0" ]}))
    "dependencies" "dep" = None
  ∧ Sync.patchLookup
      (Sync.getUpdatePatches Semver.satisfies Semver.minVersion
         {[ "dep" := "1.2.5" ]} true
         (Sync.dependenciesOnly {[ "dep" := "^1.2.0" ]}))
      "dependencies" "dep" = Some "^1.2.5".
Proof.
  assert (Sync.scopeOf (Sync.dependenciesOnly {[ "dep" := "^1.2.0" ]})
            Sync.dependencies !! "dep" = Some "^1.2.0") as Hentry
    by (vm_compute; reflexivity).
  assert (({[ "dep" := "1.2.5" ]} : gmap string string) !! "dep"
          = Some "1.2.5") as Hupdate by (vm_compute; reflexivity).
  assert (Semver.satisfies "1.2.5" "^1.2.0" = true) as Hsat
    by (vm_compute; reflexivity).
  assert (Semver.satisfies "1.2.5"
            ("~" +:+ Sync.template (Semver.minVersion "^1.2.0")) = true)
    as Hmin by (vm_compute; reflexivity).
  destruct (churn_suppression Semver.satisfies Semver.minVersion
              {[ "dep" := "1.2.5" ]}
              (Sync.dependenciesOnly {[ "dep" := "^1.2.0" ]})
              Sync.dependencies "dep" "^1.2.0" "1.2.5"
              Hentry Hupdate (conj (mk_is_Some _ _ Hupdate) eq_refl)
              Hsat Hmin) as [[H1 _] [_ H2]].
  split; [exact H1|]. refine (eq_trans H2 _). vm_compute. reflexivity.
Defined.


(** A wildcard and a local reference next to a range that is rewritten, in
    strict mode. *)
Lemma wildcard_never_rewritten_witness :
  Sync.patchLookup
    (Sync.getUpdatePatches Semver.satisfies Semver.minVersion
       {[ "a" := "2.0.0"; "b" := "2.0.0" ]} true
       (Sync.dependenciesOnly {[ "a" := "*"; "b" := "file:../b" ]}))
    "dependencies" "b" = None
  ∧ Sync.rangeAfter Semver.satisfies Semver.minVersion
      {[ "a" := "2.0.0"; "b" := "2.0.0" ]} true
      (Sync.dependenciesOnly {[ "a" := "*"; "b" := "file:../b" ]})
      Sync.dependencies "b" "file:../b" = "file:../b".
Proof.
  apply (wildcard_never_rewritten Semver.satisfies Semver.minVersion
           {[ "a" := "2.0.0"; "b" := "2.0.0" ]} true
           (Sync.dependenciesOnly {[ "a" := "*"; "b" := "file:../b" ]})
           Sync.dependencies "b" "file:../b").
  - vm_compute. reflexivity.
  - right. right. vm_compute. reflexivity.
Defined.

(** The rest of the specification's examples, run through the whole pass:
    [~1.2.3] and [>=1.2.3] keep their operator, a bare [1.2.3] becomes a
    caret range, and the end-to-end scenario's [^1.0.0] follows [1.1.0]. *)
Example getUpdatePatches_examples :
  Sync.getUpdatePatches Semver.satisfies Semver.minVersion
    {[ "a" := "1.5.0"; "b" := "1.5.0"; "c" := "1.5.0"; "d" := "1.1.0" ]}
    false
    {| Sync.ws_dependencies := {[ "a" := "~1.2.3"; "d" := "^1.0.0" ]};
       Sync.ws_peerDependencies := {[ "b" := ">=1.2.3" ]};
       Sync.ws_optionalDependencies := ∅;
       Sync.ws_devDependencies := {[ "c" := "1.2.3"; "e" := "^3.0.0" ]} |}
  = Some {[ "dependencies" := {[ "a" := "~1.5.0"; "d" := "^1.1.0" ]};
            "peerDependencies" := {[ "b" := ">=1.5.0" ]};
            "devDependencies" := {[ "c" := "^1.5.0" ]} ]}.
Proof. vm_compute. reflexivity. Qed.

(** ** The bump strategy *)
Section BumpFacts.
Import Bump.
Variable ReleaseType : Type.
Variable inc : string → ReleaseType → option string → option string.

(** C7: for a workspace without a version, the bump strategy returns (it
    does not throw) whatever the release type and the preid, and leaves the
    config document as it was, its [isModified] flag included; it logs that
    the workspace is skipped. *)
Theorem bump_without_version (workspace : Workspace)
    (options : Options ReleaseType) :
  version workspace = None →
  bump ReleaseType inc workspace options
  = Returned {| config_after := config workspace;
                debug := ["skipping workspace (no version)"] |}.
Proof. intros Hv. unfold bump. by rewrite Hv. Qed.

(** With a version, the document gets the incremented version and is marked
    as modified; when the package rejects the version, [bump] throws. *)
Lemma bump_with_version (workspace : Workspace)
    (options : Options ReleaseType) (v : string) :
  version workspace = Some v → v ≠ "" →
  bump ReleaseType inc workspace options
  = match inc v (releaseType options) (preid options) with
    | Some next =>
        Returned {| config_after := set "version" next (config workspace);
                    debug := [] |}
    | None => Threw ()
    end.
Proof.
  intros Hv Hne. unfold bump, noVersion. rewrite Hv. cbn.
  by rewrite (proj2 (String.eqb_neq v "")).
Qed.

End BumpFacts.

(** A workspace without a version, bumped by a minor release. *)
Lemma bump_without_version_witness :
  Bump.bump Semver.ReleaseType Semver.inc
    {| Bump.version := None;
       Bump.config := {| Bump.fields := {[ "name" := "root" ]};
                         Bump.isModified := false |} |}
    {| Bump.releaseType := Semver.minor; Bump.preid := None |}
  = Returned
      {| Bump.config_after := {| Bump.fields := {[ "name" := "root" ]};
                                 Bump.isModified := false |};
         Bump.debug := ["skipping workspace (no version)"] |}.
Proof.
  apply (bump_without_version Semver.ReleaseType Semver.inc
           {| Bump.version := None;
              Bump.config := {| Bump.fields := {[ "name" := "root" ]};
                                Bump.isModified := false |} |}).
  reflexivity.
Defined.

(** The end-to-end scenario's first step: [a@1.0.0], bumped by a minor
    release, becomes [a@1.1.0]. *)
Example bump_minor_example :
  Bump.bump Semver.ReleaseType Semver.inc
    {| Bump.version := Some "1.0.0";
       Bump.config := {| Bump.fields := {[ "version" := "1.0.0" ]};
                         Bump.isModified := false |} |}
    {| Bump.releaseType := Semver.minor; Bump.preid := None |}
  = Returned
      {| Bump.config_after := {| Bump.fields := {[ "version" := "1.1.0" ]};
                                 Bump.isModified := true |};
         Bump.debug := [] |}.
Proof. vm_compute. reflexivity. Qed.

(** ** The pnpm adapter *)
Section PnpmFacts.
Import Pnpm.
Variable rootDir : string.
Variable spawn :
  string → list string → Spawn.SpawnOptions → Outcome Output Spawn.SpawnError.
Variable compare : string → string → option comparison.

(** What the semver package gives: swapping the arguments swaps the answer,
    and the order is transitive. *)
Hypothesis compare_flip :
  ∀ a b c, compare a b = Some c → compare b a = Some (CompOpp c).
Hypothesis compare_trans :
  ∀ a b c, notAbove compare a b → notAbove compare b c → notAbove compare a c.

Local Abbreviation insertEntry := (insertEntry compare).
Local Abbreviation sortEntries := (sortEntries compare).
Local Abbreviation getPublished := (getPublished rootDir spawn compare).
Local Abbreviation comparable := (comparable compare).
Local Abbreviation headHighest := (headHighest compare).


Lemma notAbove_refl a : is_Some (compare a a) → notAbove compare a a.
Proof.
  intros [c Hc]. pose proof (compare_flip _ _ _ Hc) as Hc'.
  rewrite Hc in Hc'. injection Hc' as Hc'. right.
  rewrite Hc. by destruct c.
Qed.

Lemma comparable_sub l k :
  (∀ e, e ∈ k → e ∈ l) → comparable l → comparable k.
Proof. intros Hsub H e e' He He'. apply H; by apply Hsub. Qed.

Lemma comparable_cons_inv x l : comparable (x :: l) → comparable l.
Proof. apply comparable_sub. intros e He. by right. Qed.

Lemma comparable_skip x y l : comparable (x :: y :: l) → comparable (x :: l).
Proof.
  apply comparable_sub. intros e [->|He]%elem_of_cons; mem.
Qed.

Lemma insertEntry_perm x sorted :
  comparable (x :: sorted) →
  ∃ r, insertEntry x sorted = Some r ∧ r ≡ₚ x :: sorted.
Proof.
  induction sorted as [|y rest IH]; intros Hc; cbn.
  - by eexists.
  - unfold rcompare.
    destruct (Hc y x) as [c ->]; [mem..|]. cbn.
    destruct c; try (by eexists).
    destruct IH as (r & -> & Hr); [by eapply comparable_skip|].
    cbn. eexists. split; [done|]. rewrite Hr. apply Permutation_swap.
Qed.

Lemma insertEntry_headHighest x sorted r :
  comparable (x :: sorted) →
  headHighest sorted →
  insertEntry x sorted = Some r →
  headHighest r.
Proof.
  intros Hc Hh. destruct sorted as [|y rest]; cbn.
  - intros [= <-]. intros e ->%list_elem_of_singleton.
    apply notAbove_refl, Hc; mem.
  - unfold rcompare. destruct (compare (entry_version y) (entry_version x))
      as [c|] eqn:Hyx; [|done]. cbn.
    assert (c ≠ Gt →
            notAbove compare (entry_version y) (entry_version x)) as Hle.
    { unfold notAbove. rewrite Hyx. destruct c; auto; done. }
    assert (c ≠ Gt → headHighest (x :: y :: rest)) as Hx.
    { intros Hne e [->|He]%elem_of_cons.
      - apply notAbove_refl, Hc; mem.
      - eapply compare_trans; [by apply Hh|by apply Hle]. }
    destruct c; [intros [= <-]; by apply Hx..|].
    destruct (insertEntry_perm x rest) as (r' & Hr' & Hperm);
      [by eapply comparable_skip|].
    rewrite Hr'. cbn. intros [= <-].
    intros e [->|He]%elem_of_cons.
    + apply notAbove_refl, Hc; mem.
    + rewrite Hperm in He. apply elem_of_cons in He as [->|He].
      * left. by apply compare_flip in Hyx.
      * apply Hh. by right.
Qed.

(** Sorting returns, keeps the elements and puts a highest one first. *)
Lemma sortEntries_spec l :
  comparable l →
  ∃ sorted, sortEntries l = Some sorted ∧ sorted ≡ₚ l ∧ headHighest sorted.
Proof.
  induction l as [|x l IH]; intros Hc; cbn.
  - by eexists.
  - destruct IH as (sorted & -> & Hperm & Hh);
      [by eapply comparable_cons_inv|]. cbn.
    assert (comparable (x :: sorted)) as Hc'.
    { intros e e'. rewrite Hperm. apply Hc. }
    destruct (insertEntry_perm x sorted Hc') as (r & Hr & Hpr).
    exists r. split_and!; [done|by rewrite Hpr, Hperm|].
    by eapply insertEntry_headHighest.
Qed.

(** The entries of the answer and the elements that pass the filter. *)
Lemma elem_of_asArray (answer entry : Json) :
  entry ∈ asArray answer ↔ listed answer entry.
Proof.
  split.
  - destruct answer; cbn;
      try (intros ->%list_elem_of_singleton; by apply listed_alone).
    intros Hin. by eapply listed_element.
  - intros [items -> Hin|Hno ->]; [done|].
    destruct answer; cbn; try (by apply list_elem_of_singleton).
    by destruct (Hno items).
Qed.

Lemma asEntry_Some (entry : Json) (e : Entry) :
  asEntry entry = Some e →
  versionOf entry (entry_version e) ∧ gitHeadOf e = gitHeadIn entry.
Proof.
  destruct entry as [| | | | |items|members]; try done. cbn.
  destruct (member "version" members) as [[| | | |v| |]|] eqn:Hv; try done.
  intros [= <-]. split; [by exists members|done].
Qed.

Lemma asEntry_versionOf (entry : Json) (v : string) :
  versionOf entry v → ∃ e, asEntry entry = Some e ∧ entry_version e = v.
Proof. intros (members & -> & Hv). cbn. rewrite Hv. by eexists. Qed.

Lemma elem_of_validEntries (out : Output) (e : Entry) :
  e ∈ validEntries out
  ↔ ∃ entry, listed (stdoutJson out) entry ∧ asEntry entry = Some e.
Proof.
  unfold validEntries. rewrite list_elem_of_omap.
  split; intros (entry & H1 & H2); exists entry;
    (split; [by apply elem_of_asArray|done]).
Qed.

(** C8, as amended: [getPublished(name, upperBoundVersion)] asks the
    registry for [name@<=upperBoundVersion].  When the query fails, or
    succeeds with no entry that has a string version, the result is [null].
    When it succeeds with one or more such entries, and their versions are
    semantic versions (the semver package compares any two of them), the
    result is one of these entries of the answer: no entry of the answer
    has a higher version, the result's [version] is the entry's, and its
    [gitHead] is the entry's when that is a string, [null] otherwise. *)
Theorem getPublished_highest (id version : string) (out : Output) :
  spawn "pnpm" (infoArgs id version) (infoOptions rootDir) = Returned out →
  In (id +:+ "@<=" +:+ version) (infoArgs id version)
  ∧ (ok out = false → getPublished id version = Returned None)
  ∧ (ok out = true →
     (∀ entry v, listed (stdoutJson out) entry → ¬ versionOf entry v) →
     getPublished id version = Returned None)
  ∧ (ok out = true →
     (∃ entry v, listed (stdoutJson out) entry ∧ versionOf entry v) →
     (∀ e v e' v',
        listed (stdoutJson out) e → versionOf e v →
        listed (stdoutJson out) e' → versionOf e' v' →
        is_Some (compare v v')) →
     ∃ entry v,
       listed (stdoutJson out) entry
       ∧ versionOf entry v
       ∧ (∀ e' v', listed (stdoutJson out) e' → versionOf e' v' →
                   notAbove compare v' v)
       ∧ getPublished id version
         = Returned (Some {| Pnpm.version := v;
                             gitHead := gitHeadIn entry |})).
Proof.
  intros Hspawn. unfold Pnpm.getPublished. rewrite Hspawn.
  fold (validEntries out). split_and!.
  - cbn. auto.
  - by intros ->.
  - intros -> Hnone. cbn.
    destruct (validEntries out) as [|e l] eqn:Hl; [done|]. exfalso.
    assert (e ∈ validEntries out) as He by (rewrite Hl; by left).
    apply elem_of_validEntries in He as (entry & Hlisted & Hentry).
    apply asEntry_Some in Hentry as [Hv _].
    by apply (Hnone entry (entry_version e) Hlisted).
  - intros -> (entry0 & v0 & Hlisted0 & Hv0) Hcmp. cbn.
    assert (comparable (validEntries out)) as Hc.
    { intros e e' (j & Hj & He)%elem_of_validEntries
        (j' & Hj' & He')%elem_of_validEntries.
      apply asEntry_Some in He as [He _], He' as [He' _].
      by apply (Hcmp j (entry_version e) j' (entry_version e')). }
    destruct (sortEntries_spec _ Hc) as (sorted & -> & Hperm & Hh).
    destruct sorted as [|info rest].
    { apply asEntry_versionOf in Hv0 as (e0 & He0 & _).
      assert (e0 ∈ validEntries out) as Hin
        by (apply elem_of_validEntries; by exists entry0).
      rewrite <- Hperm in Hin. by apply elem_of_nil in Hin. }
    assert (info ∈ validEntries out) as Hinfo by (rewrite <- Hperm; by left).
    apply elem_of_validEntries in Hinfo as (entry & Hlisted & Hentry).
    apply asEntry_Some in Hentry as [Hv Hgit].
    exists entry, (entry_version info). split_and!; [done|done| |].
    + intros e' v' He' Hv'.
      apply asEntry_versionOf in Hv' as (e2 & He2 & <-).
      apply Hh. rewrite Hperm. apply elem_of_validEntries. by exists e'.
    + by rewrite <- Hgit.
Qed.

(** When [spawn] itself rejects (the executable cannot be launched),
    [getPublished] rejects with the same error. *)
Lemma getPublished_spawn_rejects (id version : string) e :
  spawn "pnpm" (infoArgs id version) (infoOptions rootDir) = Threw e →
  getPublished id version = Threw (SpawnRejected e).
Proof. intros Hspawn. unfold Pnpm.getPublished. by rewrite Hspawn. Qed.

End PnpmFacts.

(** The model of the semver package has the order's laws. *)
Lemma compareVersion_flip v w :
  Semver.compareVersion w v = CompOpp (Semver.compareVersion v w).
Proof.
  destruct v as [[a b] c], w as [[a' b'] c']. unfold Semver.compareVersion.
  rewrite (N.compare_antisym a a'), (N.compare_antisym b b'),
    (N.compare_antisym c c').
  destruct (N.compare a a'), (N.compare b b'), (N.compare c c'); done.
Qed.

Lemma compareVersion_trans u v w :
  Semver.compareVersion u v ≠ Gt → Semver.compareVersion v w ≠ Gt →
  Semver.compareVersion u w ≠ Gt.
Proof.
  destruct u as [[a1 b1] c1], v as [[a2 b2] c2], w as [[a3 b3] c3].
  unfold Semver.compareVersion.
  destruct (N.compare_spec a1 a2), (N.compare_spec a2 a3),
    (N.compare_spec a1 a3); try done; try lia;
  destruct (N.compare_spec b1 b2), (N.compare_spec b2 b3),
    (N.compare_spec b1 b3); try done; try lia;
  destruct (N.compare_spec c1 c2), (N.compare_spec c2 c3),
    (N.compare_spec c1 c3); try done; lia.
Qed.

Lemma semver_compare_flip a b c :
  Semver.compare a b = Some c → Semver.compare b a = Some (CompOpp c).
Proof.
  unfold Semver.compare.
  destruct (Semver.parse a) as [v|], (Semver.parse b) as [w|]; try done.
  cbn. intros [= <-]. by rewrite compareVersion_flip.
Qed.

Lemma semver_compare_trans a b c :
  Pnpm.notAbove Semver.compare a b → Pnpm.notAbove Semver.compare b c →
  Pnpm.notAbove Semver.compare a c.
Proof.
  unfold Pnpm.notAbove, Semver.compare.
  destruct (Semver.parse a) as [u|], (Semver.parse b) as [v|],
    (Semver.parse c) as [w|]; cbn; try (by intros [|] [|]).
  intros Huv Hvw.
  pose proof (compareVersion_trans u v w) as Ht.
  destruct (Semver.compareVersion u v), (Semver.compareVersion v w),
    (Semver.compareVersion u w); try (by left); try (by right);
    try (by destruct Huv); try (by destruct Hvw); exfalso; by apply Ht.
Qed.


(** Of the versions 1.2.0, 1.10.0 and 1.9.0 of the answer the highest is
    1.10.0, and its [gitHead] is a string. *)
Lemma getPublished_highest_witness :
  ∃ entry v,
    Pnpm.listed Pnpm.publishedAnswer entry
    ∧ Pnpm.versionOf entry v
    ∧ (∀ e' v', Pnpm.listed Pnpm.publishedAnswer e' → Pnpm.versionOf e' v' →
                Pnpm.notAbove Semver.compare v' v)
    ∧ Pnpm.getPublished "/repo" Pnpm.publishedRegistry Semver.compare "a"
        "2.0.0"
      = Returned (Some {| Pnpm.version := v;
                          Pnpm.gitHead := Pnpm.gitHeadIn entry |}).
Proof.
  apply (proj2 (proj2 (proj2
           (getPublished_highest "/repo" Pnpm.publishedRegistry
              Semver.compare semver_compare_flip semver_compare_trans "a"
              "2.0.0"
              {| Pnpm.ok := true; Pnpm.stdoutJson := Pnpm.publishedAnswer |}
              eq_refl)))).
  - reflexivity.
  - exists (JObject [("version", JString "1.2.0");
                     ("gitHead", JString "abc")]), "1.2.0".
    split; [|by eexists].
    eapply Pnpm.listed_element; [reflexivity|by left].
  - assert (∀ e v,
              Pnpm.listed Pnpm.publishedAnswer e → Pnpm.versionOf e v →
              is_Some (Semver.parse v)) as Hparse.
    { intros e v [items [= <-] Hin|Hno _] (members & -> & Hv).
      - rewrite !elem_of_cons in Hin.
        destruct Hin as [[= ->]|[[=]|[[= ->]|[[= ->]|[[=]|Hin]]]]];
          try (cbn in Hv; injection Hv as <-; by eexists).
        by apply elem_of_nil in Hin.
      - by destruct (Hno _ eq_refl). }
    intros e v e' v' He Hv He' Hv'. cbn [Pnpm.stdoutJson] in He, He'.
    destruct (Hparse e v He Hv) as [x Hx], (Hparse e' v' He' Hv') as [y Hy].
    unfold Semver.compare. rewrite Hx, Hy. by eexists.
Defined.

Example getPublished_example :
  Pnpm.getPublished "/repo" Pnpm.registry Semver.compare "a" "2.0.0"
  = Returned (Some {| Pnpm.version := "1.10.0"; Pnpm.gitHead := None |})
  ∧ Pnpm.getPublished "/repo" Pnpm.publishedRegistry Semver.compare "a"
      "2.0.0"
    = Returned (Some {| Pnpm.version := "1.10.0";
                        Pnpm.gitHead := Some "f00d" |}).
Proof. split; vm_compute; reflexivity. Qed.

(** C8 as first stated, without the condition on the versions, fails: the
    query succeeds, the answer has two entries with a string version, one
    of them no semantic version, and [getPublished] does not return an
    entry: the comparator, and so [getPublished], throws. *)
Lemma getPublished_throws_on_tagged_version :
  Pnpm.ok {| Pnpm.ok := true; Pnpm.stdoutJson := Pnpm.taggedAnswer |} = true
  ∧ (∃ entry v,
       Pnpm.listed Pnpm.taggedAnswer entry ∧ Pnpm.versionOf entry v)
  ∧ Pnpm.getPublished "/repo" Pnpm.taggedRegistry Semver.compare "a" "2.0.0"
    = Threw Pnpm.InvalidVersion
  ∧ ¬ ∃ result,
        Pnpm.getPublished "/repo" Pnpm.taggedRegistry Semver.compare "a"
          "2.0.0" = Returned result.
Proof.
  split_and!.
  - reflexivity.
  - exists (JObject [("version", JString "next")]), "next".
    split; [|by eexists].
    eapply Pnpm.listed_element; [reflexivity|by left].
  - vm_compute. reflexivity.
  - intros [result Hresult]. vm_compute in Hresult. discriminate.
Qed.

(** ** The command-plugin loader *)
Section PluginFacts.
Import Plugins.
Variables Value ModuleConfig Thrown : Type.
Variable isCommand : Value → bool.
Variable importRelative :
  string → string → Outcome (ImportResult Value ModuleConfig Thrown) Thrown.

Local Abbreviation loadCommandPlugin :=
  (loadCommandPlugin Value ModuleConfig Thrown isCommand importRelative).
Local Abbreviation loadCommandPlugins :=
  (loadCommandPlugins Value ModuleConfig Thrown isCommand importRelative).
Local Abbreviation loadsTo :=
  (loadsTo Value ModuleConfig Thrown isCommand importRelative).

(** One plugin: it yields a command exactly when the package loads to it,
    and then nothing is logged; otherwise it yields [null] and the first
    line logged names the package. *)
Lemma loadCommandPlugin_spec (rootDir packageId : string) :
  (∀ command,
     (loadCommandPlugin rootDir packageId).1 = Some command
     ↔ loadsTo rootDir packageId command)
  ∧ (∀ command,
       loadsTo rootDir packageId command →
       loadCommandPlugin rootDir packageId = (Some command, []))
  ∧ ((loadCommandPlugin rootDir packageId).1 = None →
     ∃ e rest, (loadCommandPlugin rootDir packageId).2 = e :: rest
               ∧ namesPackage packageId e).
Proof.
  unfold Plugins.loadCommandPlugin.
  destruct (importRelative packageId rootDir) as [imported|error] eqn:Himp.
  - destruct (moduleExports_default imported) as [|call] eqn:Hdef.
    + split_and!.
      * intros command. split; [done|].
        intros [imported' call' H1 H2 H3 H4]. congruence.
      * intros command [imported' call' H1 H2 H3 H4]. congruence.
      * intros _. eexists _, _. split; [done|]. by eexists "package ", _.
    + destruct (call (moduleConfig imported)) as [command'|error]
        eqn:Hcall.
      * destruct (isCommand command') eqn:Hcmd.
        -- split_and!.
           ++ intros command. cbn. split.
              ** intros [= <-]. by econstructor.
              ** intros [imported' call' H1 H2 H3 H4]. congruence.
           ++ intros command [imported' call' H1 H2 H3 H4]. congruence.
           ++ done.
        -- split_and!.
           ++ intros command. split; [done|].
              intros [imported' call' H1 H2 H3 H4]. congruence.
           ++ intros command [imported' call' H1 H2 H3 H4]. congruence.
           ++ intros _. eexists _, _. split; [done|].
              by eexists "package ", _.
      * split_and!.
        -- intros command. split; [done|].
           intros [imported' call' H1 H2 H3 H4]. congruence.
        -- intros command [imported' call' H1 H2 H3 H4]. congruence.
        -- intros _. eexists _, _. split; [done|].
           by eexists "loading command package ", _.
  - split_and!.
    + intros command. split; [done|].
      intros [imported' call' H1 H2 H3 H4]. congruence.
    + intros command [imported' call' H1 H2 H3 H4]. congruence.
    + intros _. eexists _, _. split; [done|].
      by eexists "loading command package ", _.
Qed.

(** C9: the commands returned are exactly the commands of the candidate
    packages that load, one for each such package and in the candidates'
    order; a candidate that does not load (its default export is no
    function, its factory returns no command, or loading throws) contributes
    no command and an error line that names it, and leaves the loading of
    the others as it is. *)
Theorem loadCommandPlugins_exact (rootDir : string)
    (rootPackage : RootPackage) :
  (loadCommandPlugins rootDir rootPackage).1
  = omap (λ packageId, (loadCommandPlugin rootDir packageId).1)
      (packageIds rootPackage)
  ∧ (∀ command,
       command ∈ (loadCommandPlugins rootDir rootPackage).1
       ↔ ∃ packageId,
           packageId ∈ packageIds rootPackage
           ∧ loadsTo rootDir packageId command)
  ∧ (∀ packageId,
       packageId ∈ packageIds rootPackage →
       (∀ command, ¬ loadsTo rootDir packageId command) →
       (loadCommandPlugin rootDir packageId).1 = None
       ∧ ∃ e, e ∈ (loadCommandPlugins rootDir rootPackage).2
              ∧ namesPackage packageId e).
Proof.
  unfold Plugins.loadCommandPlugins. cbn [fst snd].
  assert (∀ l : list string,
            omap fst (loadCommandPlugin rootDir <$> l)
            = omap (λ packageId, (loadCommandPlugin rootDir packageId).1) l)
    as Homap.
  { intros l. induction l as [|x l IH]; [done|]. cbn. by rewrite IH. }
  split_and!.
  - apply Homap.
  - intros command. rewrite Homap, list_elem_of_omap.
    split; intros (packageId & Hin & Hload); exists packageId;
      (split; [done|]); by apply loadCommandPlugin_spec.
  - intros packageId Hin Hnone.
    assert ((loadCommandPlugin rootDir packageId).1 = None) as Hfst.
    { destruct (loadCommandPlugin rootDir packageId).1 as [command|] eqn:Hc;
        [|done].
      by apply loadCommandPlugin_spec, Hnone in Hc. }
    split; [done|].
    destruct (proj2 (proj2 (loadCommandPlugin_spec rootDir packageId)) Hfst)
      as (e & rest & Hlog & Hnames).
    exists e. split; [|done].
    apply list_elem_of_In, in_concat. exists (e :: rest).
    split; [|by left]. apply list_elem_of_In.
    rewrite <- Hlog. apply list_elem_of_fmap.
    exists (loadCommandPlugin rootDir packageId). split; [done|].
    apply list_elem_of_fmap. by exists packageId.
Qed.

End PluginFacts.

(** Four candidates, found by name among the dependencies or listed in the
    configuration, without repeats and sorted. *)
Example packageIds_example :
  Plugins.packageIds Plugins.exampleRoot
  = ["./local-plugin"; "@scope/wurk-command-x"; "@wurk/command-run";
     "werk-command-test"].
Proof. vm_compute. reflexivity. Qed.

(** One of them throws, one exports no function, one returns no command:
    the fourth is loaded all the same, and each of the three is logged. *)
Example loadCommandPlugins_example :
  Plugins.loadCommandPlugins string unit string
    (λ v, negb (String.eqb v "bad")) Plugins.exampleImport "/repo"
    Plugins.exampleRoot
  = (["@wurk/command-run"],
     [Plugins.ErrorText
        ("loading command package " +:+ Plugins.quoted "./local-plugin"
           +:+ " threw the following error:");
      Plugins.ErrorThrown "ERR_MODULE_NOT_FOUND";
      Plugins.ErrorText
        ("package " +:+ Plugins.quoted "@scope/wurk-command-x"
           +:+ " does not export a valid command factory");
      Plugins.ErrorText
        ("package " +:+ Plugins.quoted "werk-command-test"
           +:+ " command factory returned an invalid command")]).
Proof. vm_compute. reflexivity. Qed.


(** ** The spawn coordinator never blocks itself *)
Section CoordinatorFacts.
Import Spawn Coordinator.

(** The promises made before [k] can be brought to settle by steps of
    progress alone. *)
Lemma settle_below (k : nat) : ∀ s,
  invariant s → k ≤ length (created s) →
  ∃ es s',
    run s es = Some s'
    ∧ forallb isProgress es = true
    ∧ length (created s') = length (created s)
    ∧ ∀ p, p < k → isSettled s' p = true.
Proof.
  induction k as [|k IH]; intros s Hinv Hk.
  - exists [], s. split_and!; [done..|]. intros p Hp. lia.
  - destruct (IH s Hinv) as (es & s1 & Hrun & Hes & Hlen & Hsettled); [lia|].
    pose proof (invariant_run _ _ _ Hinv Hrun) as Hinv1.
    assert (k < length (created s1)) as Hk1 by lia.
    destruct (statusOf_lt_is_Some s1 k Hk1) as [st Hst].
    assert (∀ s2 tail,
              run s1 tail = Some s2 → forallb isProgress tail = true →
              length (created s2) = length (created s1) →
              (∀ p, p < S k → isSettled s2 p = true) →
              ∃ es s', run s es = Some s'
                       ∧ forallb isProgress es = true
                       ∧ length (created s') = length (created s)
                       ∧ ∀ p, p < S k → isSettled s' p = true) as Hdone.
    { intros s2 tail Htail Hprog Hlen2 Hall. exists (es ++ tail), s2.
      split_and!; [by rewrite run_app, Hrun| |congruence|done].
      by rewrite forallb_app, Hes, Hprog. }
    assert (∀ s2, statusOf s2 k = Some Running →
                  length (created s2) = length (created s1) →
                  (∀ p, p < k → isSettled s2 p = true) →
                  run s2 [Settle k] = Some (setStatus k Settled s2)
                  ∧ length (created (setStatus k Settled s2))
                    = length (created s1)
                  ∧ ∀ p, p < S k →
                         isSettled (setStatus k Settled s2) p = true)
      as Hsettle.
    { intros s2 Hrunning Hlen2 Hbelow. split_and!.
      { cbn [run step]. unfold isRunning. by rewrite Hrunning. }
      { by rewrite length_setStatus. }
      intros p Hp. unfold isSettled. rewrite statusOf_setStatus.
      case_decide as Hpk.
      - subst p. by rewrite Hrunning.
      - apply Hbelow. lia. }
    destruct st.
    + assert (step s1 (Start k) = Some (setStatus k Running s1)) as Hstart.
      { apply start_enabled; [done|]. intros w Hw. apply Hsettled.
        by eapply inv_older. }
      destruct (Hsettle (setStatus k Running s1)) as (H1 & H2 & H3).
      { rewrite statusOf_setStatus, decide_True by done. by rewrite Hst. }
      { by rewrite length_setStatus. }
      { intros p Hp. unfold isSettled. rewrite statusOf_setStatus.
        rewrite decide_False by lia. by apply Hsettled. }
      apply (Hdone (setStatus k Settled (setStatus k Running s1))
               [Start k; Settle k]); [|done..].
      cbn [run]. rewrite Hstart. exact H1.
    + destruct (Hsettle s1 Hst eq_refl Hsettled) as (H1 & H2 & H3).
      by apply (Hdone (setStatus k Settled s1) [Settle k]).
    + apply (Hdone s1 []); [done..|].
      intros p Hp. destruct (decide (p = k)) as [->|Hne].
      * unfold isSettled. by rewrite Hst.
      * apply Hsettled. lia.
Qed.

(** X2: the coordinator cannot deadlock.  From every reachable registry the
    children can start and close in an order that lets every promise made so
    far settle, without a further call of [spawn]: no promise waits for
    itself or for a later one. *)
Theorem all_can_settle (s : Loop) :
  reachable s →
  ∃ es s',
    run s es = Some s'
    ∧ forallb isProgress es = true
    ∧ length (created s') = length (created s)
    ∧ allSettled s'.
Proof.
  intros Hinv%reachable_invariant.
  destruct (settle_below (length (created s)) s Hinv) as
    (es & s' & Hrun & Hes & Hlen & Hall); [done|].
  exists es, s'. split_and!; [done..|].
  intros p Hp. apply Hall. lia.
Qed.

Lemma waitsForExclusive_step s e s' :
  invariant s → waitsForExclusive s → step s e = Some s' →
  waitsForExclusive s'.
Proof.
  intros Hinv Hw Hstep p w.
  destruct e as [o|q|q|q|q]; cbn in Hstep.
  - injection Hstep as <-.
    rewrite !isExclusive_spawn, waitsOf_spawn.
    case_decide as Hp.
    + intros Ho. rewrite Ho. unfold blockingSet.
      destruct (blocking s) as [b|] eqn:Hb; [|set_solver].
      intros ->%elem_of_singleton.
      pose proof (inv_blocking_exclusive _ Hinv b Hb) as He.
      apply isExclusive_lt in He as Hlt. by rewrite decide_False by lia.
    + intros He Hin. pose proof (inv_older _ Hinv p w Hin) as Hlt.
      destruct (decide (p < length (created s))) as [Hpl|Hpl].
      * rewrite decide_False by lia. by apply (Hw p).
      * rewrite waitsOf_ge in Hin by lia. set_solver.
  - destruct (created s !! q) as [op|]; [|done].
    destruct (status op); try done. case_bool_decide; [|done].
    injection Hstep as <-.
    rewrite !isExclusive_setStatus, waitsOf_setStatus. apply Hw.
  - destruct (isRunning s q); [|done]. injection Hstep as <-.
    rewrite !isExclusive_setStatus, waitsOf_setStatus. apply Hw.
  - destruct (created s !! q) as [op|]; [|done].
    destruct (exclusive op && isSettled s q); [|done].
    injection Hstep as <-. apply Hw.
  - destruct (isSettled s q); [|done]. injection Hstep as <-. apply Hw.
Qed.

Lemma waitsForExclusive_run es : ∀ s s',
  invariant s → waitsForExclusive s → run s es = Some s' →
  waitsForExclusive s'.
Proof.
  induction es as [|e es IH]; intros s s' Hinv Hw; cbn.
  - by intros [= <-].
  - destruct (step s e) as [s1|] eqn:Hstep; [|done]. cbn.
    apply IH; [by eapply invariant_step|by eapply waitsForExclusive_step].
Qed.

(** X3: spawns without inherited streams never wait for each other.  In a
    reachable registry in which every exclusive promise has settled, every
    waiting promise can start at once, however many others are running. *)
Theorem plain_spawns_start_at_once (s : Loop) (p : nat) :
  reachable s →
  (∀ q, isExclusive s q = true → isSettled s q = true) →
  statusOf s p = Some Waiting →
  step s (Start p) = Some (setStatus p Running s).
Proof.
  intros [es Hes] Hexcl Hp.
  pose proof (invariant_run _ _ _ invariant_initial Hes) as Hinv.
  assert (waitsForExclusive s) as Hw.
  { eapply waitsForExclusive_run; [apply invariant_initial| |done].
    intros q w _ Hin. by rewrite waitsOf_ge in Hin by (cbn; lia). }
  apply start_enabled; [done|]. intros w Hin.
  destruct (isExclusive s p) eqn:He.
  - apply Hexcl in He. revert He. unfold isSettled. by rewrite Hp.
  - apply Hexcl. by apply (Hw p).
Qed.

End CoordinatorFacts.

(** After the scenario X is running and W waits: both can be brought to
    settle. *)
Lemma all_can_settle_witness :
  ∃ es s',
    Spawn.run (Spawn.after Spawn.scenario) es = Some s'
    ∧ forallb Coordinator.isProgress es = true
    ∧ length (Spawn.created s')
      = length (Spawn.created (Spawn.after Spawn.scenario))
    ∧ Coordinator.allSettled s'.
Proof.
  apply (all_can_settle (Spawn.after Spawn.scenario)).
  exists Spawn.scenario. vm_compute. reflexivity.
Defined.

(** Three plain spawns, two of them running: the third starts at once. *)
Lemma plain_spawns_start_at_once_witness :
  Spawn.step
    (Spawn.after (Spawn.twoRunning ++ [Spawn.Request Spawn.noOptions]))
    (Spawn.Start 2)
  = Some (Spawn.setStatus 2 Spawn.Running
            (Spawn.after
               (Spawn.twoRunning ++ [Spawn.Request Spawn.noOptions]))).
Proof.
  apply (plain_spawns_start_at_once
           (Spawn.after (Spawn.twoRunning ++ [Spawn.Request Spawn.noOptions]))
           2).
  - exists (Spawn.twoRunning ++ [Spawn.Request Spawn.noOptions]).
    vm_compute. reflexivity.
  - intros q. destruct q as [|[|[|q]]]; vm_compute; done.
  - vm_compute. reflexivity.
Defined.


(** ** More on the child process *)
Section ChildFacts.
Import Spawn.

(** X4: the coordinator treats a spawn as exclusive exactly when its child
    inherits a stream of the parent: [spawn]'s test on the options and the
    [stdio] triple [spawnAsync] hands to the child agree, and the child's
    stdout and stderr always get the same mode. *)
Theorem inheritsStream_iff_stdio (o : SpawnOptions) :
  (inheritsStream o = true
   ↔ (childStdio o).1.1 = StdioInherit ∨ (childStdio o).1.2 = StdioInherit)
  ∧ (childStdio o).1.2 = (childStdio o).2.
Proof.
  unfold inheritsStream, childStdio.
  destruct (input o) as [[bytes|]|], (output o) as [[]|]; cbn;
    (split; [|done]); split; intros H; try done; try (by left);
    try (by right); by destruct H.
Qed.

End ChildFacts.

(** ** [createSpawn] *)
Section CreateSpawnFacts.
Import CreateSpawn.
Variable resolve : list string → string.
Variable process_env : gmap string string.
Variable execDir : string.
Variable npmRunPath : option string → string.
Variable delimiter : string.

Local Abbreviation mergeOptions := (mergeOptions resolve).
Local Abbreviation inheritedPATH := (inheritedPATH process_env).
Local Abbreviation childPATH :=
  (childPATH process_env execDir npmRunPath delimiter).
Local Abbreviation childEnv :=
  (childEnv process_env execDir npmRunPath delimiter).

(** On options without undefined properties this is the child environment
    of [Spawn]. *)
Lemma childEnv_ofValues (o : Spawn.SpawnOptions) :
  childEnv (ofValues o)
  = Some <$> Spawn.childEnv process_env execDir npmRunPath delimiter o.
Proof.
  assert (envOf (ofValues o) = Some <$> default ∅ (Spawn.env o)) as Henv.
  { unfold envOf, ofValues. cbn. destruct (Spawn.env o); cbn; [done|].
    by rewrite fmap_empty. }
  assert (inheritedPATH (ofValues o) = Spawn.inheritedPATH process_env o)
    as Hinherited.
  { unfold CreateSpawn.inheritedPATH, Spawn.inheritedPATH. rewrite Henv.
    rewrite lookup_fmap. destruct (Spawn.env o) as [e|]; cbn.
    - by destruct (e !! "PATH").
    - by rewrite lookup_empty. }
  assert (childPATH (ofValues o)
          = Spawn.childPATH process_env execDir npmRunPath delimiter o)
    as Hpath.
  { unfold CreateSpawn.childPATH, Spawn.childPATH, Spawn.pathEntries.
    rewrite Hinherited. cbn [ofValues cwd paths].
    by destruct (Spawn.cwd o), (Spawn.paths o). }
  unfold CreateSpawn.childEnv, Spawn.childEnv.
  by rewrite Hpath, Henv, fmap_insert, map_fmap_union.
Qed.

(** The variables of the merged [env]. *)
Lemma envOf_merge (defaultOptions : Options) (options : option Options)
    (key : string) :
  envOf (mergeOptions defaultOptions options) !! key
  = match envOf (default noOptions options) !! key with
    | Some value => Some value
    | None => envOf defaultOptions !! key
    end.
Proof.
  change (envOf (mergeOptions defaultOptions options))
    with (envOf (default noOptions options) ∪ envOf defaultOptions).
  rewrite lookup_union.
  by destruct (envOf (default noOptions options) !! key),
    (envOf defaultOptions !! key).
Qed.

(** X5: a spawn function made by [createSpawn] composes defaults and call
    options as follows.  A variable other than PATH is, in the [env] handed
    to the child, what the call's [env] has for it when it has the variable,
    be it with the value [undefined]; else what the default [env] has; else
    what [process.env] has.  The inherited PATH is the one of the call's
    [env] when that has a PATH, else the one of the default [env], and
    [process.env.PATH] when there is none or the one found is [undefined];
    the child's PATH lists it after the runtime directory and the local-bin
    path of the resolved [cwd], and before the default [paths] and then the
    call's.  For [input] and [output] the call's property hides the
    default's whenever the call has it, also with the value [undefined]. *)
Theorem createSpawn_environment (defaultOptions : Options)
    (options : option Options) :
  (∀ key, key ≠ "PATH" →
     childEnv (mergeOptions defaultOptions options) !! key
     = match envOf (default noOptions options) !! key with
       | Some value => Some value
       | None =>
           match envOf defaultOptions !! key with
           | Some value => Some value
           | None => Some <$> process_env !! key
           end
       end)
  ∧ childEnv (mergeOptions defaultOptions options) !! "PATH"
    = Some
        (Some
           (join delimiter
              (List.filter (λ s, negb (String.eqb s ""))
                 ([execDir;
                   npmRunPath
                     (Some (resolve
                              (Spawn.filterBoolean
                                 [read (cwd defaultOptions);
                                  read (cwd (default noOptions options))])))]
                    ++ option_list
                         (nullish
                            (mjoin (M:=option)
                               (match envOf (default noOptions options)
                                      !! "PATH" with
                                | Some value => Some value
                                | None => envOf defaultOptions !! "PATH"
                                end))
                            (process_env !! "PATH"))
                    ++ default [] (read (paths defaultOptions))
                    ++ default [] (read (paths (default noOptions options)))))))
  ∧ read (input (mergeOptions defaultOptions options))
    = match input (default noOptions options) with
      | Some value => value
      | None => read (input defaultOptions)
      end
  ∧ read (output (mergeOptions defaultOptions options))
    = match output (default noOptions options) with
      | Some value => value
      | None => read (output defaultOptions)
      end.
Proof.
  split_and!.
  - intros key Hkey. unfold CreateSpawn.childEnv.
    rewrite lookup_insert_ne by done.
    rewrite lookup_union, envOf_merge, lookup_fmap.
    by destruct (envOf (default noOptions options) !! key),
      (envOf defaultOptions !! key), (process_env !! key).
  - unfold CreateSpawn.childEnv. rewrite lookup_insert_eq. do 2 f_equal.
    unfold CreateSpawn.childPATH, CreateSpawn.inheritedPATH.
    rewrite envOf_merge. f_equal.
    set (inherited :=
           nullish
             (mjoin (M:=option)
                (match envOf (default noOptions options) !! "PATH" with
                 | Some value => Some value
                 | None => envOf defaultOptions !! "PATH"
                 end))
             (process_env !! "PATH")).
    transitivity
      (Spawn.filterBoolean
         ((Some <$> [execDir;
                     npmRunPath
                       (Some (resolve
                                (Spawn.filterBoolean
                                   [read (cwd defaultOptions);
                                    read (cwd (default noOptions
                                                 options))])))])
            ++ [inherited]
            ++ (Some <$> (default [] (read (paths defaultOptions))
                            ++ default []
                                 (read (paths (default noOptions
                                                 options)))))));
      [reflexivity|].
    rewrite !filterBoolean_app, filterBoolean_Some, filterBoolean_option,
      filterBoolean_Some.
    by rewrite !List.filter_app.
  - cbn. by destruct (input (default noOptions options)).
  - cbn. by destruct (output (default noOptions options)).
Qed.

End CreateSpawnFacts.


(** ** The Result's buffers *)
Section OutputFacts.
Import Spawn.

Lemma length_append (a b : string) :
  String.length (a +:+ b) = String.length a + String.length b.
Proof.
  induction a as [|c a IH]; [done|].
  change (String c a +:+ b) with (String c (a +:+ b)). cbn. by rewrite IH.
Qed.

Lemma concatChunks_cons c l :
  concatChunks (c :: l) = chunk c +:+ concatChunks l.
Proof. done. Qed.

(** X6: the three buffers of a Result.  Every chunk of [combined] is in
    exactly one of [stdout] and [stderr]: their lengths add up to the length
    of [combined]; and when the child wrote to one stream only, that
    stream's buffer is [combined] and the other is empty. *)
Theorem result_buffers (r : SpawnResult) :
  String.length (combined r)
  = String.length (stdout r) + String.length (stderr r)
  ∧ (forallb isStdout (data r) = true →
     stdout r = combined r ∧ stderr r = "")
  ∧ (forallb (λ c, negb (isStdout c)) (data r) = true →
     stderr r = combined r ∧ stdout r = "").
Proof.
  unfold combined, stdout, stderr.
  induction (data r) as [|c l (IH1 & IH2 & IH3)]; [done|].
  rewrite !concatChunks_cons. cbn [List.filter forallb].
  destruct (isStdout c); cbn [negb andb]; rewrite ?concatChunks_cons.
  - split_and!.
    + rewrite !length_append, IH1. lia.
    + intros Hl. destruct (IH2 Hl) as [-> ->]. done.
    + done.
  - split_and!.
    + rewrite !length_append, IH1. lia.
    + done.
    + intros Hl. destruct (IH3 Hl) as [-> ->]. done.
Qed.

End OutputFacts.


(** ** More on the range-sync pass *)
Section MoreSyncFacts.
Import Sync Updates.
Variable satisfies : string → string → bool.
Variable minVersion : string → option string.
Variable dependencyUpdates : gmap string string.

Local Abbreviation updatedRange :=
  (updatedRange satisfies minVersion dependencyUpdates).
Local Abbreviation visitEntry :=
  (visitEntry satisfies minVersion dependencyUpdates).
Local Abbreviation visitScope :=
  (visitScope satisfies minVersion dependencyUpdates).
Local Abbreviation getUpdatePatches :=
  (getUpdatePatches satisfies minVersion dependencyUpdates).

Lemma wellFormed_patchEntry scope depName new p :
  (∀ q, p = Some q → wellFormedPatch q) →
  ∀ q, patchEntry (scopeName scope) depName new p = Some q →
       wellFormedPatch q.
Proof.
  intros Hp q [= <-] sc deps.
  destruct (decide (sc = scopeName scope)) as [->|Hne].
  - rewrite lookup_insert_eq. intros [= <-]. split; [|by eexists].
    apply insert_non_empty.
  - rewrite lookup_insert_ne by done. destruct p as [p|]; cbn.
    + by apply Hp.
    + by rewrite lookup_empty.
Qed.

Lemma wellFormed_visitScope strict workspace scope : ∀ p,
  (∀ q, p = Some q → wellFormedPatch q) →
  ∀ q, visitScope strict workspace p scope = Some q → wellFormedPatch q.
Proof.
  unfold Sync.visitScope.
  induction (map_to_list (scopeOf workspace scope)) as [|[k v] l IH];
    intros p Hp; [done|].
  cbn [foldl]. apply IH. unfold Sync.visitEntry. cbn [fst snd].
  destruct (updatedRange strict k v); [|done].
  by apply wellFormed_patchEntry.
Qed.

Lemma wellFormed_getUpdatePatches strict workspace q :
  getUpdatePatches strict workspace = Some q → wellFormedPatch q.
Proof.
  unfold Sync.getUpdatePatches, scopes. cbn [foldl].
  repeat apply wellFormed_visitScope. done.
Qed.

(** X7: [getUpdatePatches] returns [undefined] exactly when the loop has
    nothing to rewrite; a patch it returns is never an empty object and has
    no empty scope object in it, and its properties are among the four
    dependency scopes. *)
Theorem patch_undefined_or_nonempty (strict : bool) (workspace : Workspace) :
  (getUpdatePatches strict workspace = None
   ↔ ∀ scope depName depRange,
       scopeOf workspace scope !! depName = Some depRange →
       updatedRange strict depName depRange = None)
  ∧ (∀ p, getUpdatePatches strict workspace = Some p →
          p ≠ ∅ ∧ wellFormedPatch p).
Proof.
  assert (∀ p, getUpdatePatches strict workspace = Some p → p ≠ ∅) as Hne.
  { unfold Sync.getUpdatePatches, scopes. cbn [foldl].
    assert (∀ scope p0,
              (∀ q, p0 = Some q → q ≠ ∅) →
              ∀ q, visitScope strict workspace p0 scope = Some q → q ≠ ∅)
      as Hstep.
    { intros scope. unfold Sync.visitScope.
      induction (map_to_list (scopeOf workspace scope)) as [|[k v] l IH];
        intros p0 Hp0; [done|].
      cbn [foldl]. apply IH. unfold Sync.visitEntry. cbn [fst snd].
      destruct (updatedRange strict k v); [|done].
      intros q [= <-]. apply insert_non_empty. }
    repeat apply Hstep. done. }
  split; [|intros p Hp; split;
             [by apply Hne|by eapply wellFormed_getUpdatePatches]].
  split.
  - intros Hnone scope depName depRange Hentry.
    pose proof (getUpdatePatches_lookup satisfies minVersion
                  dependencyUpdates strict workspace scope depName) as Hl.
    rewrite Hnone, Hentry in Hl. done.
  - intros Hall.
    destruct (getUpdatePatches strict workspace) as [p|] eqn:Hp; [|done].
    exfalso. pose proof (Hne p eq_refl) as Hp0.
    apply map_choose in Hp0 as (sc & deps & Hsc).
    destruct (wellFormed_getUpdatePatches _ _ _ Hp sc deps Hsc)
      as [Hdeps [scope ->]].
    apply map_choose in Hdeps as (depName & new & Hnew).
    pose proof (getUpdatePatches_lookup satisfies minVersion
                  dependencyUpdates strict workspace scope depName) as Hl.
    rewrite Hp in Hl. cbn in Hl. rewrite Hsc in Hl. cbn in Hl.
    rewrite Hnew in Hl.
    destruct (scopeOf workspace scope !! depName) as [depRange|] eqn:He;
      [|done].
    cbn in Hl. by rewrite (Hall scope depName depRange He) in Hl.
Qed.

Lemma prefixOf_operator depRange : In (prefixOf depRange) operators.
Proof.
  destruct (prefixOf_spec depRange) as [op v Hop _ _|_]; [done|].
  cbn. auto.
Qed.

(** X8: every entry of the patch rewrites an entry of the workspace: the
    dependency is one of the workspace's in that scope and has an update,
    the recorded range is not a wildcard or file reference, the new range
    is one of the operators [=], [^], [~], [>], [>=] followed by the
    update's version, and it differs from the recorded text. *)
Theorem patch_entry_sound (strict : bool) (workspace : Workspace)
    (scope : Scope) (depName new : string) :
  patchLookup (getUpdatePatches strict workspace) (scopeName scope) depName
  = Some new →
  ∃ depRange version op,
    scopeOf workspace scope !! depName = Some depRange
    ∧ dependencyUpdates !! depName = Some version
    ∧ notUpdatable depRange = false
    ∧ In op operators
    ∧ new = op +:+ version
    ∧ new ≠ depRange.
Proof.
  rewrite getUpdatePatches_lookup.
  destruct (scopeOf workspace scope !! depName) as [depRange|]; [|done].
  cbn. unfold Sync.updatedRange.
  destruct (dependencyUpdates !! depName) as [version|]; [|done].
  destruct (notUpdatable depRange) eqn:Hupd; [done|].
  destruct (String.eqb_spec (newDepRange depRange version) depRange)
    as [|Hne]; [done|].
  destruct (negb strict && _); [done|].
  intros [= <-]. exists depRange, version, (prefixOf depRange).
  split_and!; [done..|apply prefixOf_operator|done|done].
Qed.

(** X9: strict mode only adds rewrites.  An entry rewritten with strict
    mode off is rewritten to the same range with strict mode on, and it was
    rewritten because the new version does not satisfy the recorded range
    or leaves the minor line of its minimum version. *)
Theorem strict_only_adds (workspace : Workspace) (scope : Scope)
    (depName new : string) :
  patchLookup (getUpdatePatches false workspace) (scopeName scope) depName
  = Some new →
  patchLookup (getUpdatePatches true workspace) (scopeName scope) depName
  = Some new
  ∧ ∃ depRange version,
      scopeOf workspace scope !! depName = Some depRange
      ∧ dependencyUpdates !! depName = Some version
      ∧ inconsequential satisfies minVersion version depRange = false.
Proof.
  rewrite !getUpdatePatches_lookup.
  destruct (scopeOf workspace scope !! depName) as [depRange|]; [|done].
  cbn. unfold Sync.updatedRange.
  destruct (dependencyUpdates !! depName) as [version|]; [|done].
  destruct (notUpdatable depRange); [done|].
  destruct (String.eqb _ depRange); [done|]. cbn.
  destruct (inconsequential _ _ version depRange) eqn:Hinc; [done|].
  intros [= <-]. split; [done|]. by exists depRange, version.
Qed.

(** X10: the pass is idempotent on what it writes.  When the update's
    version is a plain semantic version, a range the pass has written for
    it is left alone by a further pass, strict or not. *)
Theorem rewritten_range_is_stable (strict : bool)
    (depName depRange version : string) :
  dependencyUpdates !! depName = Some version →
  partialVersion version →
  updatedRange strict depName (newDepRange depRange version) = None.
Proof.
  intros Hupdate Hv. unfold Sync.updatedRange. rewrite Hupdate.
  destruct (notUpdatable _); [done|].
  assert (newDepRange (newDepRange depRange version) version
          = newDepRange depRange version) as ->; [|by rewrite String.eqb_refl].
  unfold newDepRange at 1. f_equal. unfold newDepRange.
  unfold prefixOf at 1, rangeMatch.
  rewrite (splitPrefix_operator (prefixOf depRange) version
             (prefixOf_operator depRange)
             (partialVersion_startsDigit _ Hv)).
  by rewrite (matchVersion_complete _ Hv).
Qed.

Lemma foldl_agree {A B} (f g : A → B → A) (l : list B) : ∀ a,
  (∀ a x, x ∈ l → f a x = g a x) → foldl f a l = foldl g a l.
Proof.
  induction l as [|x l IH]; intros a H; [done|].
  cbn. rewrite (H a x) by (by left). apply IH.
  intros a' y Hy. apply H. by right.
Qed.

(** X11: an update for a package the workspace does not depend on changes
    nothing: after [addUpdate(name, version)] for such a name the patches
    of the workspace are what they were. *)
Theorem addUpdate_unrelated (strict : bool) (workspace : Workspace)
    (name version : string) :
  (∀ scope, scopeOf workspace scope !! name = None) →
  Sync.getUpdatePatches satisfies minVersion
    (addUpdate name version dependencyUpdates) strict workspace
  = getUpdatePatches strict workspace.
Proof.
  intros Hname. unfold Sync.getUpdatePatches.
  apply foldl_agree. intros p scope _. unfold Sync.visitScope.
  apply foldl_agree. intros p' [k v] Hin%elem_of_map_to_list.
  unfold Sync.visitEntry, Sync.updatedRange, addUpdate. cbn [fst snd].
  rewrite lookup_insert_ne; [done|].
  intros ->. by rewrite Hname in Hin.
Qed.

End MoreSyncFacts.

(** A version with build metadata is no match of the pattern: the range
    written for it is taken for a range without operator, and a further
    strict pass turns its tilde into a caret. *)
Example rewritten_range_with_build_metadata :
  Sync.newDepRange "~1.2.3" "1.5.0+build" = "~1.5.0+build"
  ∧ Sync.newDepRange "~1.5.0+build" "1.5.0+build" = "^1.5.0+build".
Proof. by vm_compute. Qed.

Lemma patch_entry_sound_witness :
  ∃ depRange version op,
    Sync.scopeOf (Sync.dependenciesOnly {[ "dep" := "~1.2.3" ]})
      Sync.dependencies !! "dep" = Some depRange
    ∧ ({[ "dep" := "2.0.0" ]} : gmap string string) !! "dep" = Some version
    ∧ Sync.notUpdatable depRange = false
    ∧ In op Sync.operators
    ∧ "~2.0.0" = op +:+ version
    ∧ "~2.0.0" ≠ depRange.
Proof.
  apply (patch_entry_sound Semver.satisfies Semver.minVersion
           {[ "dep" := "2.0.0" ]} false
           (Sync.dependenciesOnly {[ "dep" := "~1.2.3" ]})
           Sync.dependencies "dep" "~2.0.0").
  vm_compute. reflexivity.
Defined.

Lemma strict_only_adds_witness :
  Sync.patchLookup
    (Sync.getUpdatePatches Semver.satisfies Semver.minVersion
       {[ "dep" := "1.3.0" ]} true
       (Sync.dependenciesOnly {[ "dep" := "^1.2.0" ]}))
    (Sync.scopeName Sync.dependencies) "dep" = Some "^1.3.0".
Proof.
  assert (Sync.patchLookup
            (Sync.getUpdatePatches Semver.satisfies Semver.minVersion
               {[ "dep" := "1.3.0" ]} false
               (Sync.dependenciesOnly {[ "dep" := "^1.2.0" ]}))
            (Sync.scopeName Sync.dependencies) "dep" = Some "^1.3.0") as H
    by (vm_compute; reflexivity).
  exact (proj1 (strict_only_adds Semver.satisfies Semver.minVersion
                  {[ "dep" := "1.3.0" ]}
                  (Sync.dependenciesOnly {[ "dep" := "^1.2.0" ]})
                  Sync.dependencies "dep" "^1.3.0" H)).
Defined.

Lemma rewritten_range_is_stable_witness :
  Sync.updatedRange Semver.satisfies Semver.minVersion
    {[ "dep" := "1.5.0" ]} true "dep" (Sync.newDepRange "~1.2.3" "1.5.0")
  = None.
Proof.
  apply (rewritten_range_is_stable Semver.satisfies Semver.minVersion
           {[ "dep" := "1.5.0" ]} true "dep" "~1.2.3" "1.5.0").
  - vm_compute. reflexivity.
  - apply matchVersion_sound. vm_compute. reflexivity.
Defined.

Lemma addUpdate_unrelated_witness :
  Sync.getUpdatePatches Semver.satisfies Semver.minVersion
    (Updates.addUpdate "other" "9.0.0" {[ "dep" := "1.5.0" ]}) false
    (Sync.dependenciesOnly {[ "dep" := "~1.2.3" ]})
  = Sync.getUpdatePatches Semver.satisfies Semver.minVersion
      {[ "dep" := "1.5.0" ]} false
      (Sync.dependenciesOnly {[ "dep" := "~1.2.3" ]}).
Proof.
  apply (addUpdate_unrelated Semver.satisfies Semver.minVersion
           {[ "dep" := "1.5.0" ]} false
           (Sync.dependenciesOnly {[ "dep" := "~1.2.3" ]}) "other" "9.0.0").
  intros scope. destruct scope; vm_compute; reflexivity.
Defined.


(** ** The candidates of the plugin loader *)
Section ConventionFacts.
Import Plugins Convention.

Lemma startsWith_spec (s p : string) :
  startsWith s p = true ↔ ∃ rest, s = p +:+ rest.
Proof.
  unfold startsWith. revert s. induction p as [|c p IH]; intros s; cbn.
  - split; [intros _; by exists s|by destruct s].
  - destruct s as [|d s]; [split; [done|by intros [rest Hr]]|].
    change (String.prefix (String c p) (String d s))
      with (if Ascii.ascii_dec c d then String.prefix p s else false).
    destruct (Ascii.ascii_dec c d) as [->|Hne].
    + rewrite IH. split; intros [rest Hr]; exists rest.
      * rewrite append_cons. by f_equal.
      * rewrite append_cons in Hr. by injection Hr.
    + split; [done|]. intros [rest Hr]. rewrite append_cons in Hr.
      injection Hr as Hcd _. by destruct Hne.
Qed.

Lemma commandHead_spec s : commandHead s = true ↔ commandName s.
Proof.
  unfold commandHead, commandName.
  rewrite orb_true_iff, !startsWith_spec. split.
  - intros [[rest ->]|[rest ->]]; exists rest; auto.
  - intros [rest [->| ->]]; [left|right]; by exists rest.
Qed.

Lemma commandAfterSlash_spec s :
  commandAfterSlash s = true
  ↔ ∃ before name, s = before +:+ "/" +:+ name ∧ commandName name.
Proof.
  induction s as [|c s IH]; cbn.
  - split; [done|]. intros (before & name & Hs & _).
    by destruct before.
  - rewrite orb_true_iff, andb_true_iff, IH, commandHead_spec. split.
    + intros [[Hc Hname]|(before & name & -> & Hname)].
      * apply Ascii.eqb_eq in Hc as ->. by exists "", s.
      * by exists (String c before), name.
    + intros (before & name & Hs & Hname). destruct before as [|d before].
      * left. rewrite append_nil, append_cons, append_nil in Hs.
        injection Hs as -> ->. by rewrite Ascii.eqb_refl.
      * right. rewrite append_cons in Hs. injection Hs as -> ->.
        by exists before, name.
Qed.

(** X12: the test of the naming convention accepts exactly the names of
    the pattern's language: names without line terminator that start with
    [werk-command-] or [wurk-command-], or have one of these right after a
    slash, or start with [@werk/command-] or [@wurk/command-]. *)
Theorem isCommandPackage_spec (packageId : string) :
  isCommandPackage packageId = true ↔ matchesConvention packageId.
Proof.
  unfold isCommandPackage, matchesConvention, scopedCommandName.
  rewrite andb_true_iff, !orb_true_iff, commandHead_spec,
    commandAfterSlash_spec, !startsWith_spec.
  split.
  - intros [Hn [[[Hb|Hc]|[rest Hd]]|[rest He]]]; (split; [done|]).
    + by left.
    + right. by left.
    + right. right. exists rest. by left.
    + right. right. exists rest. by right.
  - intros [Hn [Hb|[Hc|[rest [Hd|He]]]]]; (split; [done|]).
    + left. left. by left.
    + left. left. by right.
    + left. right. by exists rest.
    + right. by exists rest.
Qed.

(** X13: the candidates of the loader are the dependency names of the root
    package (of any of the four kinds) that follow the naming convention,
    and the strings listed under [wurk.commands], whether they follow it or
    not; values listed there that are no strings are ignored; and the list
    has no repeats and is in ascending order. *)
Theorem packageIds_spec (rootPackage : RootPackage) :
  (∀ packageId,
     packageId ∈ packageIds rootPackage
     ↔ (isCommandPackage packageId = true
        ∧ packageId ∈ dependencies rootPackage
                        ++ devDependencies rootPackage
                        ++ peerDependencies rootPackage
                        ++ optionalDependencies rootPackage)
       ∨ JString packageId ∈ wurk_commands rootPackage)
  ∧ NoDup (packageIds rootPackage)
  ∧ StronglySorted String.le (packageIds rootPackage).
Proof.
  unfold packageIds. split_and!.
  - intros packageId.
    rewrite merge_sort_Permutation, elem_of_remove_dups, elem_of_app.
    rewrite list_elem_of_omap, !list_elem_of_In, filter_In.
    rewrite <- !list_elem_of_In. split.
    + intros [[Hin Hp]|(v & Hv & Hs)]; [by left|right].
      destruct v; try done. by injection Hs as ->.
    + intros [[Hp Hin]|Hin]; [by left|right]. by exists (JString packageId).
  - rewrite merge_sort_Permutation. apply NoDup_remove_dups.
  - apply StronglySorted_merge_sort; apply _.
Qed.

End ConventionFacts.

Section LoaderFacts.
Import Plugins.
Variables Value ModuleConfig Thrown : Type.
Variable isCommand : Value → bool.
Variable importRelative :
  string → string → Outcome (ImportResult Value ModuleConfig Thrown) Thrown.

Local Abbreviation loadCommandPlugin :=
  (loadCommandPlugin Value ModuleConfig Thrown isCommand importRelative).
Local Abbreviation loadCommandPlugins :=
  (loadCommandPlugins Value ModuleConfig Thrown isCommand importRelative).
Local Abbreviation loadsTo :=
  (loadsTo Value ModuleConfig Thrown isCommand importRelative).

(** X14: the loader is silent on success and never invents a command.
    There are never more commands than candidates, and when every candidate
    loads there is one command for each and nothing is logged. *)
Theorem loadCommandPlugins_count (rootDir : string)
    (rootPackage : RootPackage) :
  length (loadCommandPlugins rootDir rootPackage).1
  ≤ length (packageIds rootPackage)
  ∧ ((∀ packageId, packageId ∈ packageIds rootPackage →
                   ∃ command, loadsTo rootDir packageId command) →
     length (loadCommandPlugins rootDir rootPackage).1
     = length (packageIds rootPackage)
     ∧ (loadCommandPlugins rootDir rootPackage).2 = []).
Proof.
  unfold Plugins.loadCommandPlugins. cbn [fst snd].
  induction (packageIds rootPackage) as [|packageId l [IH1 IH2]]; [done|].
  cbn [fmap list_fmap omap list_omap concat length].
  split.
  - destruct (loadCommandPlugin rootDir packageId).1; cbn; lia.
  - intros Hall.
    destruct (Hall packageId) as [command Hload]; [by left|].
    apply loadCommandPlugin_spec in Hload. rewrite Hload. cbn.
    destruct IH2 as [-> ->]; [|done].
    intros id Hid. apply Hall. by right.
Qed.

End LoaderFacts.

(** ** More on [getPublished] *)
Section PublishedFacts.
Import Pnpm.
Variable rootDir : string.
Variable spawn :
  string → list string → Spawn.SpawnOptions → Outcome Output Spawn.SpawnError.
Variable compare : string → string → option comparison.

Local Abbreviation insertEntry := (insertEntry compare).
Local Abbreviation sortEntries := (sortEntries compare).
Local Abbreviation getPublished := (getPublished rootDir spawn compare).
Local Abbreviation comparable := (comparable compare).

Lemma insertEntry_not_nil x l : insertEntry x l ≠ Some [].
Proof.
  destruct l as [|y rest]; cbn; [done|].
  destruct (rcompare compare (entry_version x) (entry_version y))
    as [[]|]; cbn; try done.
  by destruct (insertEntry x rest).
Qed.

Lemma sortEntries_nil l : sortEntries l = Some [] → l = [].
Proof.
  destruct l as [|x l]; [done|]. cbn.
  destruct (sortEntries l) as [sorted|]; cbn; [|done].
  intros H. by apply insertEntry_not_nil in H.
Qed.

(** X15: [getPublished] resolves with [null] in two cases only: the query
    failed, or its answer has no entry with a string version. *)
Theorem getPublished_null_iff (id version : string) (out : Output) :
  spawn "pnpm" (infoArgs id version) (infoOptions rootDir) = Returned out →
  getPublished id version = Returned None
  ↔ ok out = false ∨ validEntries out = [].
Proof.
  intros Hspawn. unfold Pnpm.getPublished. rewrite Hspawn.
  fold (validEntries out). destruct (ok out); cbn.
  - destruct (sortEntries (validEntries out)) as [[|info rest]|] eqn:Hs.
    + split; [|done]. intros _. right. by apply sortEntries_nil.
    + split; [done|]. intros [|He]; [done|]. by rewrite He in Hs.
    + split; [done|]. intros [|He]; [done|]. by rewrite He in Hs.
  - split; [by left|done].
Qed.

Lemma sortEntries_perm l :
  comparable l → ∃ sorted, sortEntries l = Some sorted ∧ sorted ≡ₚ l.
Proof.
  induction l as [|x l IH]; intros Hc; cbn.
  - by eexists.
  - destruct IH as (sorted & -> & Hperm); [by eapply comparable_cons_inv|].
    cbn.
    destruct (insertEntry_perm compare x sorted) as (r & Hr & Hpr).
    { intros e e'. rewrite Hperm. apply Hc. }
    exists r. split; [done|]. by rewrite Hpr, Hperm.
Qed.

(** Swapping the arguments of [semver.compare] swaps the answer. *)
Hypothesis compare_flip :
  ∀ a b c, compare a b = Some c → compare b a = Some (CompOpp c).

Lemma sortEntries_first_highest before info after :
  comparable (before ++ info :: after) →
  (∀ e, e ∈ before →
        compare (entry_version e) (entry_version info) = Some Lt) →
  (∀ e, e ∈ after → notAbove compare (entry_version e) (entry_version info)) →
  ∃ rest, sortEntries (before ++ info :: after) = Some (info :: rest).
Proof.
  intros Hc Hb Ha. induction before as [|b before IH].
  - cbn [app] in *. cbn.
    destruct (sortEntries_perm after) as (sorted & -> & Hperm);
      [by eapply comparable_cons_inv|]. cbn.
    destruct sorted as [|y rest]; cbn; [by eexists|].
    unfold rcompare.
    assert (y ∈ after) as Hy by (rewrite <- Hperm; by left).
    destruct (Ha y Hy) as [-> | ->]; cbn; by eexists.
  - cbn [app] in *.
    destruct IH as (rest & Hrest).
    { by eapply comparable_cons_inv. }
    { intros e He. apply Hb. by right. }
    cbn. rewrite Hrest. cbn. unfold rcompare.
    rewrite (compare_flip _ _ _ (Hb b ltac:(by left))). cbn.
    destruct (sortEntries_perm _ (comparable_cons_inv compare _ _ Hc))
      as (sorted & Hsorted & Hperm).
    rewrite Hrest in Hsorted. injection Hsorted as <-.
    destruct (insertEntry_perm compare b rest) as (r & -> & _).
    { intros e e' He He'. apply Hc.
      - apply elem_of_cons in He as [->|He]; [by left|].
        right. rewrite <- Hperm. by right.
      - apply elem_of_cons in He' as [->|He']; [by left|].
        right. rewrite <- Hperm. by right. }
    cbn. by eexists.
Qed.

(** X16: among entries of the same highest version, [getPublished] returns
    the one the registry listed first (the sort is stable): when every entry
    before [info] in the answer is strictly below it and no entry after it
    is above it, the result has [info]'s version and [info]'s [gitHead].
    The comparator is a consistent one, as [sort] asks: swapping its
    arguments swaps the answer, and the order is transitive. *)
Theorem getPublished_first_highest (id version : string) (out : Output)
    (before after : list Entry) (info : Entry) :
  (∀ a b c, notAbove compare a b → notAbove compare b c →
            notAbove compare a c) →
  spawn "pnpm" (infoArgs id version) (infoOptions rootDir) = Returned out →
  ok out = true →
  validEntries out = before ++ info :: after →
  comparable (validEntries out) →
  (∀ e, e ∈ before →
        compare (entry_version e) (entry_version info) = Some Lt) →
  (∀ e, e ∈ after → notAbove compare (entry_version e) (entry_version info)) →
  getPublished id version
  = Returned (Some {| Pnpm.version := entry_version info;
                      gitHead := gitHeadOf info |}).
Proof.
  intros _ Hspawn Hok Hv Hc Hb Ha. unfold Pnpm.getPublished.
  rewrite Hspawn, Hok. fold (validEntries out). rewrite Hv in *. cbn.
  by destruct (sortEntries_first_highest before info after Hc Hb Ha)
    as (rest & ->).
Qed.

End PublishedFacts.

(** The example registry answers, so the result is [null] only for an
    answer without entries. *)
Lemma getPublished_null_iff_witness :
  Pnpm.getPublished "/repo" Pnpm.registry Semver.compare "a" "2.0.0"
  = Returned None
  ↔ Pnpm.ok {| Pnpm.ok := true; Pnpm.stdoutJson := Pnpm.registryAnswer |}
    = false
    ∨ Pnpm.validEntries
        {| Pnpm.ok := true; Pnpm.stdoutJson := Pnpm.registryAnswer |} = [].
Proof.
  exact (getPublished_null_iff "/repo" Pnpm.registry Semver.compare "a"
           "2.0.0"
           {| Pnpm.ok := true; Pnpm.stdoutJson := Pnpm.registryAnswer |}
           eq_refl).
Defined.

(** Of two entries of version 1.10.0 the first one's [gitHead] is
    returned. *)
Lemma getPublished_first_highest_witness :
  Pnpm.getPublished "/repo" PnpmTies.tiedRegistry Semver.compare "a" "2.0.0"
  = Returned (Some {| Pnpm.version := "1.10.0";
                      Pnpm.gitHead := Some "first" |}).
Proof.
  assert (Pnpm.comparable Semver.compare
            (Pnpm.validEntries
               {| Pnpm.ok := true;
                  Pnpm.stdoutJson := PnpmTies.tiedAnswer |})) as Hc.
  { intros e e' He He'. vm_compute in He, He'.
    assert (∀ x : Pnpm.Entry,
              x ∈ [ {| Pnpm.entry_version := "1.2.0";
                       Pnpm.entry_gitHead := Some (JString "abc") |};
                    {| Pnpm.entry_version := "1.10.0";
                       Pnpm.entry_gitHead := Some (JString "first") |};
                    {| Pnpm.entry_version := "1.10.0";
                       Pnpm.entry_gitHead := Some (JString "second") |};
                    {| Pnpm.entry_version := "1.9.0";
                       Pnpm.entry_gitHead := Some (JString "def") |} ] →
              is_Some (Semver.parse (Pnpm.entry_version x))) as Hp.
    { intros x Hx. rewrite !elem_of_cons in Hx.
      destruct Hx as [->|[->|[->|[->|Hx]]]]; [by eexists..|].
      by apply elem_of_nil in Hx. }
    destruct (Hp e He) as [v Hv], (Hp e' He') as [w Hw].
    unfold Semver.compare. rewrite Hv, Hw. by eexists. }
  refine (getPublished_first_highest "/repo" PnpmTies.tiedRegistry
            Semver.compare semver_compare_flip "a" "2.0.0"
            {| Pnpm.ok := true; Pnpm.stdoutJson := PnpmTies.tiedAnswer |}
            [ {| Pnpm.entry_version := "1.2.0";
                 Pnpm.entry_gitHead := Some (JString "abc") |} ]
            [ {| Pnpm.entry_version := "1.10.0";
                 Pnpm.entry_gitHead := Some (JString "second") |};
              {| Pnpm.entry_version := "1.9.0";
                 Pnpm.entry_gitHead := Some (JString "def") |} ]
            {| Pnpm.entry_version := "1.10.0";
               Pnpm.entry_gitHead := Some (JString "first") |}
            semver_compare_trans eq_refl eq_refl eq_refl Hc _ _).
  - intros e ->%list_elem_of_singleton. reflexivity.
  - intros e He. rewrite !elem_of_cons in He.
    destruct He as [->|[->|He]].
    + right. reflexivity.
    + left. reflexivity.
    + by apply elem_of_nil in He.
Defined.

(** ** The release message of the version command *)
Section ReleaseMessageFacts.
Import VersionCommand.

Lemma fromSlash_app scope rest :
  noSlash scope = true →
  fromSlash (scope +:+ String "/" rest) = String "/" rest.
Proof.
  induction scope as [|c scope IH]; [done|].
  change (String c scope +:+ String "/" rest)
    with (String c (scope +:+ String "/" rest)).
  cbn [noSlash fromSlash]. destruct (Ascii.eqb c "/"); [done|].
  intros H. by apply IH.
Qed.

Lemma fromSlash_noSlash scope : noSlash scope = true → fromSlash scope = "".
Proof.
  induction scope as [|c scope IH]; [done|]. cbn [noSlash fromSlash].
  destruct (Ascii.eqb c "/"); [done|]. intros H. by apply IH.
Qed.

Lemma fromSlash_head s : startsWith (fromSlash s) "@" = false.
Proof.
  induction s as [|c s IH]; [done|]. cbn [fromSlash].
  destruct (Ascii.eqb_spec c "/") as [->|]; [done|]. apply IH.
Qed.

(** X17: the name a workspace gets in the release message.  A name that does
    not begin with [@] is kept; of a scoped name [@scope/rest] the [@scope]
    goes and the slash stays; a name that is a scope only becomes empty; and
    no result begins with [@]. *)
Theorem stripScope_spec (name : string) :
  (startsWith name "@" = false → stripScope name = name)
  ∧ (∀ scope rest, noSlash scope = true →
       name = "@" +:+ scope +:+ "/" +:+ rest →
       stripScope name = "/" +:+ rest)
  ∧ (∀ scope, noSlash scope = true →
       name = "@" +:+ scope → stripScope name = "")
  ∧ startsWith (stripScope name) "@" = false.
Proof.
  split_and!.
  - destruct name as [|c name]; [done|].
    unfold startsWith.
    change (String.prefix "@" (String c name))
      with (if Ascii.ascii_dec "@" c then String.prefix "" name else false).
    destruct (Ascii.ascii_dec "@" c) as [<-|Hc]; [by destruct name|].
    intros _. unfold stripScope.
    destruct c as [[] [] [] [] [] [] [] []]; try done.
  - intros scope rest Hs ->. by apply fromSlash_app.
  - intros scope Hs ->. by apply fromSlash_noSlash.
  - destruct name as [|c name]; [done|].
    destruct (Ascii.ascii_dec c "@") as [->|Hc].
    + apply fromSlash_head.
    + assert (stripScope (String c name) = String c name) as ->.
      { unfold stripScope.
        destruct c as [[] [] [] [] [] [] [] []]; try done. }
      unfold startsWith.
      change (String.prefix "@" (String c name))
        with (if Ascii.ascii_dec "@" c then String.prefix "" name
              else false).
      by destruct (Ascii.ascii_dec "@" c) as [<-|].
Qed.

End ReleaseMessageFacts.

(** ** The logger *)
Section LogFacts.
Import Log.
Variable process_env : gmap string string.
Variable stripAnsi : string → string.
Variable chalk : Style → string → string.
Variable prefix : string.
Variable trim : bool.

Local Abbreviation enabled := (enabled process_env).
Local Abbreviation logAt := (logAt process_env stripAnsi chalk prefix trim).
Local Abbreviation write := (write stripAnsi chalk prefix trim).
Local Abbreviation writeLine := (writeLine stripAnsi chalk prefix trim).

(** X18: the levels are ordered by severity: when the method of one level
    writes, the method of every more severe level writes too, whatever
    [LOG_LEVEL] is set to. *)
Theorem logAt_severity (a b : LogLevel) (message : option string) :
  LOG_LEVEL a ≤ LOG_LEVEL b →
  enabled b = true →
  logAt a message = write (streamOf a) message (styleOf a).
Proof.
  intros Hab Hb. unfold Log.logAt.
  assert (enabled a = true) as ->; [|done].
  unfold Log.enabled, lessEq in *.
  destruct (getLevel process_env).2 as [n|]; [|done].
  apply Nat.leb_le. apply Nat.leb_le in Hb. lia.
Qed.

Lemma ownKey_inherited name : isInherited name = true → ownKey name = None.
Proof.
  unfold isInherited, inheritedKeys. cbn [existsb].
  rewrite !orb_true_iff, !String.eqb_eq.
  intros H. repeat (destruct H as [H|H]; [by subst|]). done.
Qed.

(** X19: [LOG_LEVEL] is looked up with [in], which also finds the properties
    the table inherits from [Object.prototype]; their values are no numbers,
    so with such a name in [LOG_LEVEL] no method writes anything, [error]
    included. *)
Theorem logAt_inherited_key (name : string) (level : LogLevel)
    (message : option string) :
  process_env !! "LOG_LEVEL" = Some name →
  isInherited name = true →
  logAt level message = [].
Proof.
  intros Hname Hin. unfold Log.logAt, Log.enabled, getLevel.
  rewrite Hname, (ownKey_inherited _ Hin), Hin.
  assert (truthy (Some name) = true) as ->; [|done].
  cbn. destruct name; [done|done].
Qed.

Lemma noBreak_app a b :
  noBreak (a +:+ b) = noBreak a && noBreak b.
Proof.
  induction a as [|c a IH]; [done|].
  change (String c a +:+ b) with (String c (a +:+ b)). cbn [noBreak].
  rewrite IH. by rewrite andb_assoc.
Qed.

Lemma splitLines_not_nil text : splitLines text ≠ [].
Proof.
  destruct text as [|c rest]; [done|]. cbn [splitLines].
  destruct (Ascii.eqb c CR).
  { destruct rest as [|d rest']; [done|]. by destruct (Ascii.eqb d LF). }
  destruct (Ascii.eqb c LF); [done|]. by destruct (splitLines rest).
Qed.

(** No line of the split has a line break. *)
Lemma splitLines_noBreak text line :
  line ∈ splitLines text → noBreak line = true.
Proof.
  revert line.
  assert (∀ n text, String.length text < n →
            ∀ line, line ∈ splitLines text → noBreak line = true) as H.
  { clear text. induction n as [|n IH]; [lia|].
    intros [|c rest] Hlen line; cbn [splitLines String.length] in *.
    { by intros ->%list_elem_of_singleton. }
    destruct (Ascii.eqb c CR) eqn:Hcr.
    { destruct rest as [|d rest'].
      - cbn. rewrite !elem_of_cons.
        intros [->|[->|H]]; [done..|]. by apply elem_of_nil in H.
      - destruct (Ascii.eqb d LF).
        + intros [->|H]%elem_of_cons; [done|].
          apply (IH rest'); [cbn in Hlen; lia|done].
        + intros [->|H]%elem_of_cons; [done|].
          apply (IH (String d rest')); [lia|done]. }
    destruct (Ascii.eqb c LF) eqn:Hlf.
    { intros [->|H]%elem_of_cons; [done|]. apply (IH rest); [lia|done]. }
    pose proof (IH rest ltac:(lia)) as IHr.
    destruct (splitLines rest) as [|l ls].
    - intros ->%list_elem_of_singleton. cbn. by rewrite Hcr, Hlf.
    - intros [->|H]%elem_of_cons.
      + cbn [noBreak]. rewrite Hcr, Hlf. cbn. apply IHr. by left.
      + apply IHr. by right. }
  intros line. apply (H (S (String.length text))). lia.
Qed.

Lemma elem_of_removelast {A} (x : A) l : x ∈ removelast l → x ∈ l.
Proof.
  induction l as [|y l IH]; [done|]. cbn.
  destruct l as [|z l]; [by intros ?%elem_of_nil|].
  intros [->|H]%elem_of_cons; [by left|]. right. by apply IH.
Qed.

Lemma elem_of_popEmpty line lines : line ∈ popEmpty lines → line ∈ lines.
Proof.
  unfold popEmpty. destruct (last lines) as [[|]|]; try done.
  apply elem_of_removelast.
Qed.

Lemma trimEnd_noBreak s : noBreak s = true → noBreak (trimEnd s) = true.
Proof.
  induction s as [|c s IH]; [done|]. cbn [noBreak trimEnd].
  intros [Hc Hs]%andb_true_iff. specialize (IH Hs).
  destruct (trimEnd s) as [|d t].
  - destruct (Sync.isSpace c); [done|]. cbn. by rewrite Hc.
  - cbn [noBreak] in *. by rewrite Hc, IH.
Qed.

Lemma trimEnd_idemp s : trimEnd (trimEnd s) = trimEnd s.
Proof.
  induction s as [|c s IH]; [done|]. cbn [trimEnd].
  destruct (trimEnd s) as [|d t] eqn:Ht.
  - destruct (Sync.isSpace c) eqn:Hc; [done|]. cbn. by rewrite Hc.
  - cbn [trimEnd] in *. by rewrite IH.
Qed.

(** X20: [#write] writes line by line.  Each chunk it writes to the stream is
    the prefix, one formatted line and a line feed, where the line, before
    the ANSI codes go, has no line break and no white space at its end; with
    [trim] set no chunk is made of an empty line. *)
Theorem write_line_by_line (stream : Stream) (message : option string)
    (style : option Style) (chunk : Stream * string) :
  chunk ∈ write stream message style →
  ∃ line,
    noBreak line = true
    ∧ trimEnd line = line
    ∧ chunk = (stream,
               prefix +:+ format chalk style (stripAnsi line)
                 +:+ String LF "")
    ∧ (trim = true → stripAnsi line ≠ "").
Proof.
  unfold Log.write. rewrite list_elem_of_In, in_flat_map.
  intros (raw & Hraw & Hchunk).
  apply list_elem_of_In in Hraw. apply list_elem_of_In in Hchunk.
  apply elem_of_popEmpty, splitLines_noBreak in Hraw.
  unfold Log.writeLine, cleaned in Hchunk.
  exists (trimEnd raw).
  destruct (String.eqb_spec (stripAnsi (trimEnd raw)) "") as [He|Hne].
  - destruct trim; cbn in Hchunk; [by apply elem_of_nil in Hchunk|].
    apply list_elem_of_singleton in Hchunk as ->.
    split_and!; [by apply trimEnd_noBreak|apply trimEnd_idemp|done|done].
  - rewrite orb_true_r in Hchunk.
    apply list_elem_of_singleton in Hchunk as ->.
    split_and!; [by apply trimEnd_noBreak|apply trimEnd_idemp|done|done].
Qed.

Lemma splitLines_line line rest :
  noBreak line = true →
  splitLines (line +:+ rest)
  = match splitLines rest with
    | l :: ls => (line +:+ l) :: ls
    | [] => [line]
    end.
Proof.
  induction line as [|c line IH].
  - intros _. change ("" +:+ rest) with rest.
    pose proof (splitLines_not_nil rest).
    by destruct (splitLines rest).
  - cbn [noBreak]. intros [[Hcr Hlf]%andb_true_iff Hl]%andb_true_iff.
    change (String c line +:+ rest) with (String c (line +:+ rest)).
    cbn [splitLines].
    apply negb_true_iff in Hcr, Hlf. rewrite Hcr, Hlf, (IH Hl).
    pose proof (splitLines_not_nil rest).
    by destruct (splitLines rest).
Qed.

Lemma splitLines_ending sep rest :
  isLineEnding sep → startsLF rest = false →
  splitLines (sep +:+ rest) = "" :: splitLines rest.
Proof.
  intros [Hs|[Hs|Hs]] Hrest; subst sep; [done|done|].
  change (String CR "" +:+ rest) with (String CR rest). cbn [splitLines].
  change (Ascii.eqb CR CR) with true. cbv iota.
  destruct rest as [|d rest']; [done|]. cbn in Hrest. by rewrite Hrest.
Qed.

Lemma startsLF_app a b :
  noBreak a = true →
  startsLF (a +:+ b) = match a with "" => startsLF b | _ => false end.
Proof.
  destruct a as [|c a]; [done|]. cbn [noBreak].
  intros [[_ Hlf]%andb_true_iff _]%andb_true_iff.
  change (String c a +:+ b) with (String c (a +:+ b)). cbn.
  by apply negb_true_iff in Hlf.
Qed.

Lemma startsLF_join sep lines :
  isLineEnding sep → sep ≠ String LF "" →
  Forall (λ l, noBreak l = true) lines →
  startsLF (join sep lines) = false.
Proof.
  intros Hsep Hne Hl. destruct Hl as [|l ls Hl Hls]; [done|].
  destruct ls as [|l' ls].
  - cbn. destruct l as [|c l]; [done|]. cbn in *.
    apply andb_true_iff in Hl as [[_ Hlf]%andb_true_iff _].
    by apply negb_true_iff in Hlf.
  - change (join sep (l :: l' :: ls))
      with (l +:+ sep +:+ join sep (l' :: ls)).
    rewrite startsLF_app by done. destruct l; [|done].
    destruct Hsep as [Hs|[Hs|Hs]]; subst sep; done.
Qed.

Lemma splitLines_join sep lines :
  isLineEnding sep → lines ≠ [] →
  Forall (λ l, noBreak l = true) lines →
  splitLines (join sep lines) = lines.
Proof.
  intros Hsep Hne Hl. induction Hl as [|l ls Hl Hls IH]; [done|].
  destruct ls as [|l' ls].
  - cbn [join]. rewrite <- (append_empty_r l) at 1.
    rewrite splitLines_line by done. cbn [splitLines].
    by rewrite append_empty_r.
  - change (join sep (l :: l' :: ls))
      with (l +:+ sep +:+ join sep (l' :: ls)).
    rewrite splitLines_line by done.
    assert (splitLines (sep +:+ join sep (l' :: ls))
            = "" :: l' :: ls) as ->.
    { destruct (decide (sep = String LF "")) as [->|Hs].
      - change (String LF "" +:+ join (String LF "") (l' :: ls))
          with (String LF (join (String LF "") (l' :: ls))).
        cbn [splitLines]. change (Ascii.eqb LF CR) with false.
        change (Ascii.eqb LF LF) with true. cbv iota.
        by rewrite IH.
      - rewrite splitLines_ending; [by rewrite IH|done|].
        by apply startsLF_join. }
    by rewrite append_empty_r.
Qed.

(** X21: a message of several lines is written as its lines, one call of
    [#writeLine] each, whichever of the three line endings joins them; when
    the last line is empty it is dropped. *)
Theorem write_joined_lines (stream : Stream) (style : option Style)
    (sep : string) (lines : list string) :
  isLineEnding sep →
  Forall (λ l, noBreak l = true) lines →
  write stream (Some (join sep lines)) style
  = flat_map (λ line, writeLine stream line style) (popEmpty lines).
Proof.
  intros Hsep Hl. unfold Log.write. destruct lines as [|l ls]; [done|].
  change (linesOf (Some (join sep (l :: ls))))
    with (popEmpty (splitLines (join sep (l :: ls)))).
  by rewrite splitLines_join.
Qed.

End LogFacts.

(** [error] writes whenever [info] does. *)
Lemma logAt_severity_witness :
  Log.logAt ∅ (λ s, s) (λ _ s, s) "" false Log.error (Some "failed")
  = [(Log.Stderr, String "f" (String "a" (String "i" (String "l"
       (String "e" (String "d" (String Log.LF "")))))))].
Proof.
  refine (eq_trans
            (logAt_severity ∅ (λ s, s) (λ _ s, s) "" false Log.error
               Log.info (Some "failed") _ _) _).
  - vm_compute. lia.
  - reflexivity.
  - vm_compute. reflexivity.
Defined.

(** With [LOG_LEVEL=toString] an error is not written. *)
Lemma logAt_inherited_key_witness :
  Log.logAt {[ "LOG_LEVEL" := "toString" ]} (λ s, s) (λ _ s, s) "" false
    Log.error (Some "failed") = [].
Proof.
  apply (logAt_inherited_key {[ "LOG_LEVEL" := "toString" ]} (λ s, s)
           (λ _ s, s) "" false "toString" Log.error (Some "failed")).
  - vm_compute. reflexivity.
  - reflexivity.
Defined.

(** A line with trailing blanks, written with a prefix. *)
Lemma write_line_by_line_witness :
  ∃ line,
    Log.noBreak line = true
    ∧ Log.trimEnd line = line
    ∧ (Log.Stdout, String "a" (String Log.LF ""))
      = (Log.Stdout,
         "" +:+ Log.format (λ _ s, s) None ((λ s, s) line)
           +:+ String Log.LF "")
    ∧ (false = true → (λ s : string, s) line ≠ "").
Proof.
  apply (write_line_by_line (λ s, s) (λ _ s, s) "" false Log.Stdout
           (Some "a  ") None (Log.Stdout, String "a" (String Log.LF ""))).
  vm_compute. left.
Defined.

(** Three lines joined by carriage return and line feed, the last one
    empty. *)
Lemma write_joined_lines_witness :
  Log.write (λ s, s) (λ _ s, s) "> " false Log.Stdout
    (Some (join (String Log.CR (String Log.LF "")) ["a"; "b"; ""])) None
  = flat_map
      (λ line, Log.writeLine (λ s, s) (λ _ s, s) "> " false Log.Stdout line
                 None)
      (Log.popEmpty ["a"; "b"; ""]).
Proof.
  apply (write_joined_lines (λ s, s) (λ _ s, s) "> " false Log.Stdout None
           (String Log.CR (String Log.LF "")) ["a"; "b"; ""]).
  - right. left. reflexivity.
  - repeat constructor.
Defined.

(** ** The properties above at concrete inputs *)

(** A call whose [env] has [HOME] and [PATH] with the value [undefined],
    and whose [output] is [undefined]: the child's [HOME] is undefined
    though the default [env] and the process have one, its PATH has the
    segment of the process and not the default's, and the default [output]
    is gone. *)
Lemma createSpawn_environment_witness :
  CreateSpawn.childEnv {[ "HOME" := "/process"; "PATH" := "/usr/bin" ]}
    "/node/bin" (λ _, "/w/node_modules/.bin") ":"
    (CreateSpawn.mergeOptions (join "/") CreateSpawn.exampleDefaults
       (Some CreateSpawn.exampleCall)) !! "HOME"
  = Some None
  ∧ CreateSpawn.childEnv {[ "HOME" := "/process"; "PATH" := "/usr/bin" ]}
      "/node/bin" (λ _, "/w/node_modules/.bin") ":"
      (CreateSpawn.mergeOptions (join "/") CreateSpawn.exampleDefaults
         (Some CreateSpawn.exampleCall)) !! "PATH"
    = Some (Some "/node/bin:/w/node_modules/.bin:/usr/bin:/extra")
  ∧ CreateSpawn.read
      (CreateSpawn.output
         (CreateSpawn.mergeOptions (join "/") CreateSpawn.exampleDefaults
            (Some CreateSpawn.exampleCall)))
    = None.
Proof.
  pose proof (createSpawn_environment (join "/")
                {[ "HOME" := "/process"; "PATH" := "/usr/bin" ]} "/node/bin"
                (λ _, "/w/node_modules/.bin") ":"
                CreateSpawn.exampleDefaults (Some CreateSpawn.exampleCall))
    as (Hkey & Hpath & _ & Houtput).
  split_and!.
  - refine (eq_trans (Hkey "HOME" _) _); [discriminate|].
    vm_compute. reflexivity.
  - refine (eq_trans Hpath _). vm_compute. reflexivity.
  - refine (eq_trans Houtput _). reflexivity.
Defined.

(** A child that wrote to its standard output only. *)
Lemma result_buffers_witness :
  Spawn.stdout
    {| Spawn.data := [ {| Spawn.stream := Spawn.Stdout; Spawn.chunk := "a" |};
                       {| Spawn.stream := Spawn.Stdout; Spawn.chunk := "b" |} ];
       Spawn.exitCode := Some 0%Z; Spawn.signalCode := None;
       Spawn.ok := true |}
  = Spawn.combined
      {| Spawn.data := [ {| Spawn.stream := Spawn.Stdout; Spawn.chunk := "a" |};
                         {| Spawn.stream := Spawn.Stdout;
                            Spawn.chunk := "b" |} ];
         Spawn.exitCode := Some 0%Z; Spawn.signalCode := None;
         Spawn.ok := true |}
  ∧ Spawn.stderr
      {| Spawn.data := [ {| Spawn.stream := Spawn.Stdout; Spawn.chunk := "a" |};
                         {| Spawn.stream := Spawn.Stdout;
                            Spawn.chunk := "b" |} ];
         Spawn.exitCode := Some 0%Z; Spawn.signalCode := None;
         Spawn.ok := true |}
    = "".
Proof.
  apply (proj1 (proj2 (result_buffers
           {| Spawn.data :=
                [ {| Spawn.stream := Spawn.Stdout; Spawn.chunk := "a" |};
                  {| Spawn.stream := Spawn.Stdout; Spawn.chunk := "b" |} ];
              Spawn.exitCode := Some 0%Z; Spawn.signalCode := None;
              Spawn.ok := true |}))).
  reflexivity.
Defined.

(** The patch of one rewritten dependency. *)
Lemma patch_undefined_or_nonempty_witness :
  ({[ "dependencies" := {[ "dep" := "~2.0.0" ]} ]}
     : gmap string (gmap string string)) ≠ ∅
  ∧ Updates.wellFormedPatch {[ "dependencies" := {[ "dep" := "~2.0.0" ]} ]}.
Proof.
  assert (Sync.getUpdatePatches Semver.satisfies Semver.minVersion
            {[ "dep" := "2.0.0" ]} false
            (Sync.dependenciesOnly {[ "dep" := "~1.2.3" ]})
          = Some {[ "dependencies" := {[ "dep" := "~2.0.0" ]} ]}) as H
    by (vm_compute; reflexivity).
  exact (proj2
           (patch_undefined_or_nonempty Semver.satisfies Semver.minVersion
              {[ "dep" := "2.0.0" ]} false
              (Sync.dependenciesOnly {[ "dep" := "~1.2.3" ]}))
           {[ "dependencies" := {[ "dep" := "~2.0.0" ]} ]} H).
Defined.

(** When every candidate of the example root loads, there are four commands
    and no error line. *)
Lemma loadCommandPlugins_count_witness :
  length
    (Plugins.loadCommandPlugins string unit string (λ _, true)
       (λ packageId _,
          Returned
            {| Plugins.moduleExports_default :=
                 Plugins.Factory (λ _, Returned packageId);
               Plugins.moduleConfig := () |})
       "/repo" Plugins.exampleRoot).1
  = length (Plugins.packageIds Plugins.exampleRoot)
  ∧ (Plugins.loadCommandPlugins string unit string (λ _, true)
       (λ packageId _,
          Returned
            {| Plugins.moduleExports_default :=
                 Plugins.Factory (λ _, Returned packageId);
               Plugins.moduleConfig := () |})
       "/repo" Plugins.exampleRoot).2 = [].
Proof.
  apply (proj2
           (loadCommandPlugins_count string unit string (λ _, true)
              (λ packageId _,
                 Returned
                   {| Plugins.moduleExports_default :=
                        Plugins.Factory (λ _, Returned packageId);
                      Plugins.moduleConfig := () |})
              "/repo" Plugins.exampleRoot)).
  intros packageId _. exists packageId.
  by eapply Plugins.loads_command.
Defined.

(** The scoped name of a workspace in the release message. *)
Lemma stripScope_spec_witness :
  VersionCommand.stripScope "@wurk/cli" = "/cli".
Proof.
  exact (proj1 (proj2 (stripScope_spec "@wurk/cli")) "wurk" "cli" eq_refl
           eq_refl).
Defined.
